(** * happybase.util: byte-string successor and retry wrappers

  A shallow embedding of [bytes_increment], [retryable] and
  [retryable_generator] from [happybase/util.py], and the properties
  of them that the specification states. *)

From Stdlib Require Import ZArith NArith Lia.
From Stdlib.Strings Require Import Byte String.
From stdpp Require Import base list gmap.

Open Scope N_scope.
Open Scope nat_scope.

(** ** Python byte strings

  A [bytes] / [bytearray] value is a list of bytes; indexing is
  stdpp's lookup, item assignment stdpp's insert, slicing [b[:k]] is
  [take k]. *)

Module PyBytes.

Abbreviation bytes := (list byte).

(** The exceptions the [bytearray] operations used below can raise. *)
Inductive error : Type :=
| IndexError   (* b[i] with i out of range *)
| ValueError.  (* storing an int outside range(0, 256) *)

(** Result of a Python call: a value, or a raised exception. *)
Inductive py (A : Type) : Type :=
| Returns (a : A)
| Raises (err : error).
Arguments Returns {A} a.
Arguments Raises {A} err.

(** The integer held by a byte, as [b[i]] reads it. *)
Definition ord (x : byte) : N := Byte.to_N x.

(** [a < b] on [bytes]: lexicographic on the unsigned byte values, a
    proper prefix sorting first. *)
Fixpoint bytes_ltb (a b : bytes) : bool :=
  match a, b with
  | _, [] => false
  | [], _ :: _ => true
  | x :: a', y :: b' =>
      match (ord x ?= ord y)%N with
      | Lt => true
      | Eq => bytes_ltb a' b'
      | Gt => false
      end
  end.

Definition bytes_lt (a b : bytes) : Prop := bytes_ltb a b = true.

(** Every byte of the string is [0xFF] (true of the empty string). *)
Definition all_ff (b : bytes) : Prop := Forall (λ x, ord x = 0xff%N) b.

(** The loop of [bytes_increment]:
    [for i in range(n - 1, -1, -1)], on the bytearray [b]. *)
Fixpoint scan (b : bytes) (n : nat) : py (option bytes) :=
  match n with
  | O => Returns None
  | S i =>
      match b !! i with
      | None => Raises IndexError
      | Some x =>
          if negb (ord x =? 0xff)%N then
            match Byte.of_N (ord x + 1) with
            | None => Raises ValueError
            | Some y => Returns (Some (take (S i) (<[i := y]> b)))
            end
          else scan b i
      end
  end.

(** [bytes_increment(b)]; Python's [None] is [Returns None]. *)
Definition bytes_increment (b : bytes) : py (option bytes) :=
  scan b (length b).

(** [r] is [b] with its last byte below [0xFF] incremented by one and
    every byte after that one dropped. *)
Definition increments_last_below_ff (b r : bytes) : Prop :=
  ∃ (p : bytes) (x y : byte) (s : bytes),
    b = p ++ x :: s ∧ ord x ≠ 0xff%N ∧ all_ff s ∧
    ord y = (ord x + 1)%N ∧ r = p ++ [y].

End PyBytes.

(** ** Python calls with effects

    An operation handed to the wrappers is an opaque callable: it is
    run on the call arguments in some state of the world, and either
    returns a value or raises, leaving a new state of the world.  The
    embedding records every invocation of the operation and of the
    callback, and every message given to the logger, in a trace. *)

Module Retry.

Section Calls.

Context {world args exn cls : Type}.

(** What a call does: [return v] or [raise e]. *)
Inductive outcome (A : Type) : Type :=
| Return (v : A)
| Raise (e : exn).
Arguments Return {A} v.
Arguments Raise {A} e.

(** A Python callable taking [*args, **kwargs]. *)
Definition callable (A : Type) : Type := args → world → outcome A * world.

(** [isinstance(e, c)]: the test an [except c] clause makes. *)
Variable isinstance : exn → cls → bool.

(** [except expected_exception as e], [expected_exception] being a
    class or a tuple of classes; the default [()] matches nothing. *)
Definition matches (expected_exception : list cls) (e : exn) : bool :=
  existsb (isinstance e) expected_exception.

Section Results.

(** [R] is the type of what the wrapped operation returns.  For the
    generator wrapper it is the type of iterators, which produce
    elements of type [value]. *)
Context {R value : Type}.

Inductive event : Type :=
| Called (a : args) (r : outcome R)           (* func( *args, **kwargs) *)
| CalledBack (a : args) (r : outcome unit)    (* callback( *args, **kwargs) *)
| LogError (prev_exceptions : list exn)       (* logger.error(..., prev_exceptions) *)
| LogInfo (e : exn) (attempts_left : Z).       (* logger.info(..., retry_count - i) *)

(** Computations on the world that append to the trace. *)
Definition M (A : Type) : Type := world → A * world * list event.

#[global] Instance M_ret : MRet M := λ A (v : A) w, (v, w, []).

#[global] Instance M_bind : MBind M := λ A B (f : A → M B) (m : M A) w,
  let '(x, w1, t1) := m w in
  let '(y, w2, t2) := f x w1 in
  (y, w2, t1 ++ t2).

Definition call (func : callable R) (a : args) : M (outcome R) :=
  λ w, let '(r, w') := func a w in (r, w', [Called a r]).

Definition call_back (callback : callable unit) (a : args) : M (outcome unit) :=
  λ w, let '(r, w') := callback a w in (r, w', [CalledBack a r]).

Definition log_error (prev_exceptions : list exn) : M unit :=
  λ w, (tt, w, [LogError prev_exceptions]).

Definition log_info (e : exn) (attempts_left : Z) : M unit :=
  λ w, (tt, w, [LogInfo e attempts_left]).

(** The arguments of the invocations of the operation, in order. *)
Definition calls (t : list event) : list args :=
  omap (λ ev, match ev with Called a _ => Some a | _ => None end) t.

(** The arguments of the invocations of the callback, in order. *)
Definition callbacks (t : list event) : list args :=
  omap (λ ev, match ev with CalledBack a _ => Some a | _ => None end) t.

(** The exceptions the invocations of the operation raised, in order. *)
Definition raised (t : list event) : list exn :=
  omap (λ ev, match ev with Called _ (Raise e) => Some e | _ => None end) t.

(** What [next(it)] does.  [StopIteration] and [GeneratorExit] are the
    signals of the iteration protocol, which [retryable_generator]
    catches by name; they have constructors of their own, and [exn]
    holds the other exceptions. *)
Inductive pulled : Type :=
| Yielded (v : value)
| Stopped              (* raise StopIteration *)
| Exited               (* raise GeneratorExit *)
| Raised (e : exn).

(** [next(object_to_return)] for the iterators the operation returns. *)
Variable iter_next : R → world → pulled * world.

Definition pull (obj : R) : M pulled :=
  λ w, let '(p, w') := iter_next obj w in (p, w', []).

(** The generator object a call of [retryable_generator]'s [wrapper]
    makes, by the point where its frame is suspended.  It is driven by
    [next] alone here ([close], [throw] and [send] are not modelled). *)
Inductive generator : Type :=
| GenCreated (a : args)                  (* body not started *)
| GenAtFirstYield (object_to_return : R) (* at [yield next(object_to_return)] *)
| GenDelegating (object_to_return : R)   (* inside [yield from object_to_return] *)
| GenClosed.                             (* body finished *)

(** [functools.partial(f, expected_exception=..., retry_count=...,
    callback=...)], [f] one of the two decorators. *)
Inductive decorator : Type := retryable_fn | retryable_generator_fn.

Record partial : Type := Partial {
  partial_func : decorator;
  kw_expected_exception : list cls;
  kw_retry_count : Z;
  kw_callback : option (callable unit)
}.

(** The function a decorator returns for an operation: a plain function
    ([retryable]'s [wrapper]) or a generator function
    ([retryable_generator]'s [wrapper]), given by the generator object
    a call makes and by what [next] does on such an object. *)
Inductive wrapped : Type :=
| CallWrapper (run : args → M (option (outcome R)))
| GeneratorWrapper (start : args → generator)
    (next : generator → M (option (pulled * generator))).

(** The callback, when there is one, returns normally on [a], taking
    the world from [w] to [w'] (the specification's "must not throw"). *)
Definition callback_returns (callback : option (callable unit)) (a : args)
    (w w' : world) : Prop :=
  match callback with
  | Some cb => cb a w = (Return tt, w')
  | None => w' = w
  end.

(** No invocation of the callback raised in the trace [t]. *)
Definition callbacks_returned (t : list event) : Prop :=
  Forall (λ ev, ∀ a e, ev ≠ CalledBack a (Raise e)) t.

(** The trace [t] of a run that ended in [r]: no callback raised in it,
    or one did, as the very last event, and [r] is its exception
    leaving the wrapper ([raise_of e'] is that result). *)
Definition settled {A : Type} (t : list event) (r : option A)
    (raise_of : exn → A) : Prop :=
  callbacks_returned t ∨
  ∃ t0 a' e', t = t0 ++ [CalledBack a' (Raise e')] ∧ callbacks_returned t0 ∧
              r = Some (raise_of e').

Section Policy.

(** The keyword arguments of both decorators. *)
Variable expected_exception : list cls.
Variable retry_count : Z.
Variable callback : option (callable unit).

(** The body of [except expected_exception as e:], which the two
    wrappers share word for word.  [Raise e'] leaves the wrapper with
    [e'] ([raise e], or the callback raising); [Return prev] goes round
    the [while True] loop again, [i] incremented, [prev] being the
    history with [e] appended. *)
Definition except_expected (a : args) (i : Z) (prev_exceptions : list exn)
    (e : exn) : M (outcome (list exn)) :=
  let prev_exceptions := prev_exceptions ++ [e] in
  if (i >=? retry_count)%Z then
    log_error prev_exceptions;;
    mret (Raise e)
  else
    log_info e (retry_count - i);;
    r ← match callback with
        | Some cb => call_back cb a
        | None => mret (Return tt)
        end;
    match r with
    | Raise e' => mret (Raise e')
    | Return _ => mret (Return prev_exceptions)
    end.

Section Wrapped.

Variable func : callable R.

(** *** [retryable] *)

(** The [while True] loop of [retryable]'s [wrapper], run for at most
    [fuel] iterations; [None] when the loop is still running then. *)
Fixpoint retryable_loop (fuel : nat) (a : args) (i : Z)
    (prev_exceptions : list exn) : M (option (outcome R)) :=
  match fuel with
  | O => mret None
  | S fuel' =>
      r ← call func a;
      match r with
      | Return v => mret (Some (Return v))
      | Raise e =>
          if matches expected_exception e then
            h ← except_expected a i prev_exceptions e;
            match h with
            | Raise e' => mret (Some (Raise e'))
            | Return prev_exceptions =>
                retryable_loop fuel' a (i + 1) prev_exceptions
            end
          else mret (Some (Raise e))
      end
  end.

(** [wrapper( *args, **kwargs)]: [i = 0], [prev_exceptions = []], then
    the loop, which makes at most [retry_count + 1] iterations. *)
Definition retryable_wrapper (a : args) : M (option (outcome R)) :=
  retryable_loop (S (Z.to_nat retry_count)) a 0 [].

(** *** [retryable_generator] *)

(** [yield from object_to_return] followed by [return], from the point
    where the next element is asked of [object_to_return]. *)
Definition delegate (obj : R) : M (pulled * generator) :=
  p ← pull obj;
  match p with
  | Yielded v => mret (Yielded v, GenDelegating obj)
  | Stopped => mret (Stopped, GenClosed)
  | Exited => mret (Exited, GenClosed)
  | Raised e => mret (Raised e, GenClosed)
  end.

(** The [while True] loop of the generator, from the top of an
    iteration up to where the frame is suspended or finished. *)
Fixpoint generator_loop (fuel : nat) (a : args) (i : Z)
    (prev_exceptions : list exn) : M (option (pulled * generator)) :=
  match fuel with
  | O => mret None
  | S fuel' =>
      let on_raise (e : exn) : M (option (pulled * generator)) :=
        if matches expected_exception e then
          h ← except_expected a i prev_exceptions e;
          match h with
          | Raise e' => mret (Some (Raised e', GenClosed))
          | Return prev_exceptions =>
              generator_loop fuel' a (i + 1) prev_exceptions
          end
        else mret (Some (Raised e, GenClosed)) in
      r ← call func a;
      match r with
      | Raise e => on_raise e
      | Return object_to_return =>
          p ← pull object_to_return;
          match p with
          | Yielded v => mret (Some (Yielded v, GenAtFirstYield object_to_return))
          | Stopped => mret (Some (Stopped, GenClosed))          (* return *)
          | Exited => x ← delegate object_to_return; mret (Some x) (* pass, then else: *)
          | Raised e => on_raise e
          end
      end
  end.

(** [next(g)] on the generator object [g]. *)
Definition gen_next (g : generator) : M (option (pulled * generator)) :=
  match g with
  | GenCreated a => generator_loop (S (Z.to_nat retry_count)) a 0 []
  | GenAtFirstYield obj => x ← delegate obj; mret (Some x)  (* else: yield from *)
  | GenDelegating obj => x ← delegate obj; mret (Some x)
  | GenClosed => mret (Some (Stopped, GenClosed))
  end.

End Wrapped.

(** [retryable(func, expected_exception, retry_count=..., callback=...)] *)
Definition retryable (func : option (callable R)) : partial + wrapped :=
  match func with
  | None =>
      inl (Partial retryable_fn expected_exception retry_count callback)
  | Some f => inr (CallWrapper (retryable_wrapper f))
  end.

(** [retryable_generator(func, expected_exception, retry_count=...,
    callback=...)] *)
Definition retryable_generator (func : option (callable R)) : partial + wrapped :=
  match func with
  | None =>
      inl (Partial retryable_fn expected_exception retry_count callback)
  | Some f => inr (GeneratorWrapper GenCreated (gen_next f))
  end.

End Policy.

(** Calling a [partial] on an operation, as a decorator with arguments
    is used. *)
Definition partial_call (p : partial) (f : callable R) : partial + wrapped :=
  match partial_func p with
  | retryable_fn =>
      retryable (kw_expected_exception p) (kw_retry_count p) (kw_callback p)
        (Some f)
  | retryable_generator_fn =>
      retryable_generator (kw_expected_exception p) (kw_retry_count p)
        (kw_callback p) (Some f)
  end.

(** A consumer: [n] successive [next] on a generator object, giving what
    each of them did. *)
Fixpoint pulls (next : generator → M (option (pulled * generator)))
    (n : nat) (g : generator) : M (option (list pulled * generator)) :=
  match n with
  | O => mret (Some ([], g))
  | S n' =>
      r ← next g;
      match r with
      | None => mret None
      | Some (p, g') =>
          rest ← pulls next n' g';
          match rest with
          | None => mret None
          | Some (ps, g'') => mret (Some (p :: ps, g''))
          end
      end
  end.

(** A consumer: what asking the first element of [f(args)] does, as in
    [next(iter(f(args)))], for a wrapped [f] that returns iterators. *)
Definition first_element (f : wrapped) (a : args) : M (option pulled) :=
  match f with
  | CallWrapper run =>
      r ← run a;
      match r with
      | None => mret None
      | Some (Raise e) => mret (Some (Raised e))
      | Some (Return obj) => p ← pull obj; mret (Some p)
      end
  | GeneratorWrapper start next =>
      r ← next (start a);
      mret (fst <$> r)
  end.

End Results.

End Calls.

Arguments Return {exn A} v.
Arguments Raise {exn A} e.

End Retry.

(** ** Test doubles

    Operations in the manner of [unittest.mock.Mock(side_effect=...)],
    as the tests in [tests/test_util.py] use them, and their
    counterparts for operations that return iterators. *)

Module Mock.
Import Retry.

(** The arguments of a call, as in [f(202, '03')]. *)
Definition args : Type := Z * string.

(** Exception objects: a class and, to tell two instances apart, a
    serial number. *)
Inductive exc_class : Type := ValueError | NotImplementedError | Exception.

Record exc : Type := Exc { exc_type : exc_class; serial : nat }.

(** [Exception] is the base class of the other two. *)
Definition isinstance (e : exc) (c : exc_class) : bool :=
  match c, exc_type e with
  | Exception, _ => true
  | ValueError, ValueError => true
  | NotImplementedError, NotImplementedError => true
  | _, _ => false
  end.

(** The world of a mock: how many times it was invoked, and how many
    elements were asked of the iterator it returned last. *)
Definition world : Type := nat * nat.

(** A mock whose [n]-th invocation (from 0) does [side_effect n]. *)
Definition mock {R : Type} (side_effect : nat → outcome (exn := exc) R)
    : callable (world := world) (args := args) R :=
  λ _ w, (side_effect (fst w), (S (fst w), 0)).

(** An operation returning iterators: the iterator of the [n]-th
    invocation is named [n]; asking it its [k]-th element does what
    [nth k (plan n)] says, and stops past the end of [plan n]. *)
Definition producer : callable (world := world) (args := args) (exn := exc) nat :=
  mock (λ n, Return n).

Definition iter_next {value : Type}
    (plan : nat → list (pulled (exn := exc) (value := value)))
    (obj : nat) (w : world) : pulled (exn := exc) (value := value) * world :=
  (nth (snd w) (plan obj) Stopped, (fst w, S (snd w))).

(** A callback that returns, and one that raises [e]. *)
Definition callback_ok : callable (world := world) (args := args) (exn := exc) unit :=
  λ _ w, (Return tt, w).

Definition callback_raising (e : exc)
    : callable (world := world) (args := args) (exn := exc) unit :=
  λ _ w, (Raise e, w).

(** The call of the tests, [f(202, '03')], and the world before it. *)
Definition a0 : args := (202%Z, "03"%string).
Definition w0 : world := (0, 0).

(** [Mock(side_effect=[ValueError, ValueError, ...])]. *)
Definition always_failing {R : Type}
    : callable (world := world) (args := args) (exn := exc) R :=
  mock (λ n, Raise (Exc ValueError n)).

(** [Mock(side_effect=[ValueError, 42])]. *)
Definition failing_once : callable (world := world) (args := args) (exn := exc) Z :=
  mock (λ n, match n with O => Raise (Exc ValueError 0) | _ => Return 42%Z end).

(** [Mock(side_effect=[NotImplementedError, 42])]. *)
Definition failing_otherwise : callable (world := world) (args := args) (exn := exc) Z :=
  mock (λ n, match n with O => Raise (Exc NotImplementedError 0) | _ => Return 42%Z end).

(** The first iterator raises [ValueError] on its first element; the
    later ones yield 1, 2, 3. *)
Definition plan_retry (n : nat) : list (pulled (exn := exc) (value := Z)) :=
  match n with
  | O => [Raised (Exc ValueError 0)]
  | _ => [Yielded 1%Z; Yielded 2%Z; Yielded 3%Z]
  end.

(** Every iterator raises [NotImplementedError] on its first element. *)
Definition plan_unexpected (n : nat) : list (pulled (exn := exc) (value := Z)) :=
  [Raised (Exc NotImplementedError n)].

(** Every iterator is empty. *)
Definition plan_empty (n : nat) : list (pulled (exn := exc) (value := Z)) := [].

(** Every iterator yields 1 and then raises [ValueError]. *)
Definition plan_breaks (n : nat) : list (pulled (exn := exc) (value := Z)) :=
  [Yielded 1%Z; Raised (Exc ValueError n)].

End Mock.

(** ** Python text: the naming conventions

    A [str] is a sequence of Unicode code points.  [str.lower] and
    [str.upper] belong to Python; they are parameters here, and what is
    assumed of them where it matters is their effect on ASCII text. *)

Module PyStr.

Abbreviation str := (list N).

(** A string literal as a [str]. *)
Definition of_string (s : string) : str :=
  Ascii.N_of_ascii <$> list_ascii_of_string s.

Inductive exception : Type :=
| IndexError            (* s[0] on an empty sequence *)
| AttributeError        (* getattr(obj, name), no such attribute *)
| TypeError
| UnicodeEncodeError.

Inductive result (A : Type) : Type :=
| Returns (a : A)
| Raises (e : exception).
Arguments Returns {A} a.
Arguments Raises {A} e.

(** The character ['_']. *)
Definition underscore : N := 95.

(** [CAPITALS = re.compile('([A-Z])')]: the characters it matches. *)
Definition is_capital (c : N) : bool := (65 <=? c)%N && (c <=? 90)%N.

(** The characters [a] to [z]. *)
Definition is_small (c : N) : bool := (97 <=? c)%N && (c <=? 122)%N.

(** [s.split(sep)], [sep] a single character. *)
Fixpoint split (sep : N) (s : str) : list str :=
  match s with
  | [] => [[]]
  | c :: s' =>
      if (c =? sep)%N then [] :: split sep s'
      else match split sep s' with
           | chunk :: chunks => (c :: chunk) :: chunks
           | [] => [[c]]
           end
  end.

(** What [str.lower] and [str.upper] do to ASCII text. *)
Definition ascii_lower (c : N) : N := if is_capital c then (c + 32)%N else c.
Definition ascii_upper (c : N) : N := if is_small c then (c - 32)%N else c.

Definition is_ascii (s : str) : Prop := Forall (λ c, (c < 128)%N) s.

Definition lower_on_ascii (str_lower : str → str) : Prop :=
  ∀ s, is_ascii s → str_lower s = ascii_lower <$> s.

Definition upper_on_ascii (str_upper : str → str) : Prop :=
  ∀ s, is_ascii s → str_upper s = ascii_upper <$> s.

(** [sep.join(words)], [sep] a single character. *)
Definition join (sep : N) (words : list str) : str :=
  match words with
  | [] => []
  | w :: ws => w ++ flat_map (λ x, sep :: x) ws
  end.

(** ASCII text with no capital and no ['_'] in it. *)
Definition plain (s : str) : Prop :=
  Forall (λ c, (c < 128)%N ∧ is_capital c = false ∧ c ≠ underscore) s.

(** A word of a PEP8 name: a letter [a] to [z], then plain text. *)
Definition pep8_word (w : str) : Prop :=
  ∃ l rest, w = l :: rest ∧ is_small l = true ∧ plain rest.

(** A word with its first letter, [a] to [z], made a capital. *)
Definition cap (w : str) : str :=
  match w with
  | l :: rest => (l - 32)%N :: rest
  | [] => []
  end.

(** ASCII text with no ['_'] in it, as a camel-cased name is. *)
Definition camel_text (s : str) : Prop :=
  Forall (λ c, (c < 128)%N ∧ c ≠ underscore) s.

Section CaseMapping.

Variable str_lower str_upper : str → str.

(** [CAPITALS.sub(lambda m: '_' + m.groups()[0].lower(), name)] *)
Definition capitals_sub (name : str) : str :=
  flat_map (λ c, if is_capital c then underscore :: str_lower [c] else [c]) name.

(** [camel_case_to_pep8(name)] *)
Definition camel_case_to_pep8 (name : str) : result str :=
  let converted := capitals_sub name in
  match converted !! 0 with
  | None => Raises IndexError
  | Some c0 =>
      if (c0 =? underscore)%N then Returns (drop 1 converted)
      else Returns converted
  end.

(** [s[0].upper() + s[1:].lower()] *)
Definition capitalize (s : str) : result str :=
  match s !! 0 with
  | None => Raises IndexError
  | Some c => Returns (str_upper [c] ++ str_lower (drop 1 s))
  end.

(** [[s[0].upper() + s[1:].lower() for s in chunks]] *)
Fixpoint capitalize_all (chunks : list str) : result (list str) :=
  match chunks with
  | [] => Returns []
  | s :: chunks' =>
      match capitalize s with
      | Raises e => Raises e
      | Returns x =>
          match capitalize_all chunks' with
          | Raises e => Raises e
          | Returns xs => Returns (x :: xs)
          end
      end
  end.

(** [pep8_to_camel_case(name, initial)] *)
Definition pep8_to_camel_case (name : str) (initial : bool) : result str :=
  let chunks := split underscore name in
  match capitalize_all chunks with
  | Raises e => Raises e
  | Returns converted =>
      if initial then Returns (concat converted)
      else
        match chunks !! 0 with
        | None => Raises IndexError
        | Some chunk0 => Returns (str_lower chunk0 ++ concat (drop 1 converted))
        end
  end.

End CaseMapping.

(** Case mappings that act on the ASCII letters and on nothing else:
    what [str.lower] and [str.upper] are on ASCII text. *)
Definition lower_ascii_only (s : str) : str := ascii_lower <$> s.
Definition upper_ascii_only (s : str) : str := ascii_upper <$> s.

End PyStr.

(** ** Thrift payloads as dictionaries *)

Module Thrift.
Import PyStr.

Section Payload.

(** The type of attribute values. *)
Context {value : Type}.

(** A Thrift payload object, as [thrift_attrs] and
    [thrift_type_to_dict] see it: the dictionary [thrift_spec], from
    field numbers to tuples [(ttype, name, ...)], in the order of its
    items, and the attributes of the object by name. *)
Record payload : Type := Payload {
  thrift_spec : list (Z * (Z * str));
  attributes : gmap str value
}.

Variable str_lower : str → str.

(** [thrift_attrs(obj_or_cls)]:
    [[v[1] for v in obj_or_cls.thrift_spec.values()]] *)
Definition thrift_attrs (obj : payload) : list str :=
  (λ v : Z * str, v.2) <$> (snd <$> thrift_spec obj).

(** [dict(...)] consuming the pairs
    [(camel_case_to_pep8(attr), getattr(obj, attr)) for attr in attrs],
    one after the other, into the dictionary [d]. *)
Fixpoint dict_of_attrs (obj : payload) (attrs : list str) (d : gmap str value)
    : result (gmap str value) :=
  match attrs with
  | [] => Returns d
  | attr :: attrs' =>
      match camel_case_to_pep8 str_lower attr with
      | Raises e => Raises e
      | Returns key =>
          match attributes obj !! attr with
          | None => Raises AttributeError
          | Some v => dict_of_attrs obj attrs' (<[key := v]> d)
          end
      end
  end.

(** [thrift_type_to_dict(obj)] *)
Definition thrift_type_to_dict (obj : payload) : result (gmap str value) :=
  dict_of_attrs obj (thrift_attrs obj) ∅.

End Payload.

(** A payload with the fields [fooBar], [name] and [FooBar], in this
    order: the first and the last convert to [foo_bar]. *)
Definition scan_payload : payload (value := Z) :=
  Payload
    [(1%Z, (11%Z, of_string "fooBar")); (2%Z, (8%Z, of_string "name"));
     (3%Z, (11%Z, of_string "FooBar"))]
    (<[of_string "fooBar" := 10%Z]>
       (<[of_string "name" := 20%Z]> (<[of_string "FooBar" := 30%Z]> ∅))).

End Thrift.

(** ** Text or bytes *)

Module EnsureBytes.
Import PyStr.

(** The argument of [ensure_bytes]: an instance of [six.binary_type],
    an instance of [six.text_type], or anything else. *)
Inductive pyobject : Type :=
| ObjBytes (b : list byte)
| ObjText (s : str)
| ObjOther.

Section Encoding.

(** [s.encode('utf-8')], Python's. *)
Variable encode_utf8 : str → result (list byte).

(** [ensure_bytes(str_or_bytes)], with the default [binary_type] and
    [text_type]. *)
Definition ensure_bytes (str_or_bytes : pyobject) : result (list byte) :=
  match str_or_bytes with
  | ObjBytes b => Returns b
  | ObjText s => encode_utf8 s
  | ObjOther => Raises TypeError
  end.

End Encoding.

(** An encoder for the witnesses: UTF-8 on ASCII text. *)
Definition encode_ascii (s : str) : result (list byte) :=
  if forallb (λ c, c <? 128)%N s
  then Returns ((λ c, default x00 (Byte.of_N c)) <$> s)
  else Raises UnicodeEncodeError.

End EnsureBytes.

(** ** Consumers of the wrapped operations *)

Module RetryObservers.
Import Retry.

Section Observers.

Context {world args exn R value : Type}.

(** What the invocations of the operation did, in order. *)
Definition outcomes (t : list (event (args := args) (exn := exn) (R := R)))
    : list (outcome (exn := exn) R) :=
  omap (λ ev, match ev with Called _ r => Some r | _ => None end) t.


Variable iter_next : R → world → pulled (exn := exn) (value := value) * world.



End Observers.

(** Every iterator raises [GeneratorExit] on its first element and
    yields 5 after that. *)
Definition plan_exit (n : nat)
    : list (pulled (exn := Mock.exc) (value := Z)) :=
  [Exited; Yielded 5%Z].

End RetryObservers.

Module PyBytesFacts.
Import PyBytes.

(** *** Bytes and their integer values *)

Lemma ord_lt_256 (x : byte) : (ord x < 256)%N.
Proof. unfold ord. pose proof (Byte.to_N_bounded x). lia. Qed.

Lemma ord_inj (x y : byte) : ord x = ord y → x = y.
Proof.
  unfold ord. intros H.
  apply (f_equal Byte.of_N) in H. rewrite !Byte.of_to_N in H. congruence.
Qed.

Lemma of_N_succ (x : byte) :
  ord x ≠ 0xff%N → ∃ y, Byte.of_N (ord x + 1) = Some y ∧ ord y = (ord x + 1)%N.
Proof.
  intros Hx. pose proof (ord_lt_256 x) as Hb.
  destruct (Byte.of_N (ord x + 1)) as [y|] eqn:E.
  - exists y. split; [done|]. unfold ord. by apply Byte.to_of_N.
  - apply Byte.of_N_None_iff in E. change 0xff%N with 255%N in Hx. lia.
Qed.

(** *** The order on byte strings *)

Lemma bytes_ltb_app_l (p a b : bytes) :
  bytes_ltb (p ++ a) (p ++ b) = bytes_ltb a b.
Proof.
  induction p as [|x p IH]; simpl; [done|].
  by rewrite N.compare_refl.
Qed.

Lemma bytes_ltb_irrefl (a : bytes) : bytes_ltb a a = false.
Proof. induction a as [|x a IH]; simpl; [done|]. by rewrite N.compare_refl. Qed.

Lemma bytes_ltb_nil_r (a : bytes) : bytes_ltb a [] = false.
Proof. by destruct a. Qed.

(** A string of [0xFF] bytes is below no string that is not longer. *)
Lemma all_ff_not_below (w r : bytes) :
  all_ff w → length r ≤ length w → bytes_ltb w r = false.
Proof.
  revert r. induction w as [|x w IH]; intros r Hw Hlen.
  - destruct r; simpl in *; [done | lia].
  - destruct r as [|c r]; [done|]. simpl in *.
    apply Forall_cons in Hw as [Hx Hw].
    pose proof (ord_lt_256 c) as Hc. rewrite Hx.
    destruct (N.compare_spec 0xff (ord c)) as [E|E|E]; try done.
    + apply IH; [done | lia].
    + change 0xff%N with 255%N in E. lia.
Qed.

(** *** What the scan computes *)

Lemma scan_app (b s : bytes) (n : nat) :
  n ≤ length b →
  scan (b ++ s) n = scan b n.
Proof.
  induction n as [|i IH]; intros Hn; simpl; [done|].
  rewrite lookup_app_l by lia.
  destruct (b !! i) as [x|] eqn:Hx.
  2:{ apply lookup_ge_None in Hx. lia. }
  destruct (negb (ord x =? 0xff)%N).
  - destruct (Byte.of_N (ord x + 1)) as [y|]; [|done].
    rewrite insert_app_l by lia.
    rewrite take_app_le by (rewrite length_insert; lia). done.
  - apply IH. lia.
Qed.

Lemma bytes_increment_snoc (b : bytes) (x : byte) :
  bytes_increment (b ++ [x]) =
    if (ord x =? 0xff)%N then bytes_increment b
    else match Byte.of_N (ord x + 1) with
         | Some y => Returns (Some (b ++ [y]))
         | None => Raises ValueError
         end.
Proof.
  unfold bytes_increment. rewrite length_app, Nat.add_1_r. simpl scan.
  rewrite list_lookup_middle by done.
  destruct (ord x =? 0xff)%N; simpl negb; cbv iota.
  - apply scan_app. lia.
  - destruct (Byte.of_N (ord x + 1)) as [y|]; [|done].
    rewrite insert_app_r_alt by lia. rewrite Nat.sub_diag. simpl.
    rewrite take_app_ge by (simpl; lia).
    replace (S (length b) - length b) with 1 by lia.
    by rewrite firstn_all2 by (simpl; lia).
Qed.

(** The two ways the scan can end, and nothing else. *)
Lemma bytes_increment_cases (b : bytes) :
  (all_ff b ∧ bytes_increment b = Returns None) ∨
  (∃ r, increments_last_below_ff b r ∧ bytes_increment b = Returns (Some r)).
Proof.
  induction b as [|x b IH] using rev_ind.
  - left. split; [constructor | done].
  - rewrite bytes_increment_snoc.
    destruct (N.eqb_spec (ord x) 0xff) as [Hx|Hx].
    + destruct IH as [[Hall Hb]|(r & (p & x' & y & s & -> & Hx' & Hs & Hy & ->) & Hb)].
      * left. split; [|done]. apply Forall_app. split; [done|]. by constructor.
      * right. exists (p ++ [y]). split; [|done].
        exists p, x', y, (s ++ [x]). rewrite <- app_assoc. simpl.
        repeat split; try done.
        apply Forall_app. split; [done|]. by constructor.
    + right. destruct (of_N_succ x Hx) as (y & -> & Hy).
      exists (b ++ [y]). split; [|done].
      exists b, x, y, []. repeat split; try done. constructor.
Qed.

Lemma increments_not_all_ff (b r : bytes) :
  increments_last_below_ff b r → ¬ all_ff b.
Proof.
  intros (p & x & y & s & -> & Hx & _) Hall.
  apply Forall_app in Hall as [_ Hall].
  apply Forall_cons in Hall as [Hx' _]. done.
Qed.

Lemma increments_sorts_after (b r k : bytes) :
  increments_last_below_ff b r → bytes_lt (b ++ k) r.
Proof.
  intros (p & x & y & s & -> & Hx & Hs & Hy & ->).
  unfold bytes_lt. rewrite <- app_assoc, bytes_ltb_app_l. simpl.
  rewrite Hy. replace (ord x ?= ord x + 1)%N with Lt; [done|].
  symmetry. apply N.compare_lt_iff. lia.
Qed.

(** Below the incremented string there is always room for a string that
    extends the original one. *)
Lemma increments_least (p s u : bytes) (x y : byte) :
  all_ff s → ord y = (ord x + 1)%N →
  bytes_lt u (p ++ [y]) →
  ∃ t, (p ++ x :: s) `prefix_of` t ∧ bytes_ltb t u = false.
Proof.
  intros Hs Hy. revert u. unfold bytes_lt.
  induction p as [|a p IH]; intros u Hu.
  - destruct u as [|c u]; simpl in Hu.
    { exists (x :: s). split; [done|]. apply bytes_ltb_nil_r. }
    rewrite Hy in Hu.
    destruct (N.compare_spec (ord c) (ord x + 1)) as [E|E|E]; try done.
    { by rewrite bytes_ltb_nil_r in Hu. }
    destruct (N.compare_spec (ord x) (ord c)) as [E'|E'|E'].
    + exists (x :: s ++ replicate (length u) xff).
      split; [by exists (replicate (length u) xff)|].
      simpl. rewrite E', N.compare_refl.
      apply all_ff_not_below.
      * apply Forall_app. split; [done|]. by apply Forall_replicate.
      * rewrite length_app, length_replicate. lia.
    + lia.
    + exists (x :: s). split; [done|]. simpl.
      by apply N.compare_gt_iff in E' as ->.
  - destruct u as [|c u]; simpl in Hu.
    { exists ((a :: p) ++ x :: s). split; [done|]. apply bytes_ltb_nil_r. }
    destruct (N.compare_spec (ord c) (ord a)) as [E|E|E]; try done.
    + destruct (IH u Hu) as (t & [k ->] & Ht).
      exists (a :: (p ++ x :: s) ++ k). split; [by exists k|].
      simpl. by rewrite E, N.compare_refl.
    + exists ((a :: p) ++ x :: s). split; [done|]. simpl.
      by apply N.compare_gt_iff in E as ->.
Qed.

(** [bytes_increment] raises neither [IndexError] nor [ValueError]. *)
Lemma bytes_increment_returns (b : bytes) :
  ∃ r, bytes_increment b = Returns r.
Proof.
  destruct (bytes_increment_cases b) as [[_ E]|(r & _ & E)]; rewrite E; eauto.
Qed.

(** The values of [test_bytes_increment]. *)
Example test_bytes_increment :
  bytes_increment [x00] = Returns (Some [x01]) ∧
  bytes_increment [xfe] = Returns (Some [xff]) ∧
  bytes_increment [x12; x34] = Returns (Some [x12; x35]) ∧
  bytes_increment [x12; xfe] = Returns (Some [x12; xff]) ∧
  bytes_increment [x12; xff] = Returns (Some [x13]) ∧
  bytes_increment [x42; x42; x42; xff] = Returns (Some [x42; x42; x43]) ∧
  bytes_increment [x42; x42; xff; xff] = Returns (Some [x42; x43]) ∧
  bytes_increment [xff; xff; xff] = Returns None ∧
  bytes_increment [] = Returns None.
Proof. repeat split; reflexivity. Qed.

(** *** The claims about [bytes_increment] *)

(** C6. For a byte string [b] that is not all [0xFF], [bytes_increment]
    returns a string (not [None]) that sorts strictly after [b], is no
    longer than [b], and is [b] with its last byte below [0xFF]
    incremented and everything after that byte dropped. *)
Theorem bytes_increment_successor (b : bytes) :
  ¬ all_ff b →
  ∃ r, bytes_increment b = Returns (Some r) ∧
       bytes_lt b r ∧ length r ≤ length b ∧
       increments_last_below_ff b r.
Proof.
  intros Hb.
  destruct (bytes_increment_cases b) as [[Hall _]|(r & Hr & E)]; [done|].
  exists r. repeat split; try done.
  - rewrite <- (app_nil_r b). by apply increments_sorts_after.
  - destruct Hr as (p & x & y & s & -> & _ & _ & _ & ->).
    rewrite !length_app. simpl. lia.
Qed.

Lemma bytes_increment_successor_witness :
  ∃ r, bytes_increment [x12; xff] = Returns (Some r) ∧
       bytes_lt [x12; xff] r ∧ length r ≤ 2 ∧
       increments_last_below_ff [x12; xff] r.
Proof.
  apply (bytes_increment_successor [x12; xff]).
  intros H. apply Forall_cons in H as [H _]. vm_compute in H. discriminate.
Defined.

(** C7. [bytes_increment] returns [None] on every string made of [0xFF]
    bytes only, the empty string included, and on no other string. *)
Theorem bytes_increment_none_iff (b : bytes) :
  bytes_increment b = Returns None ↔ all_ff b.
Proof.
  destruct (bytes_increment_cases b) as [[Hall E]|(r & Hr & E)].
  - done.
  - rewrite E. split; [done|].
    intros Hall. by apply increments_not_all_ff in Hr.
Qed.

(** C8. For [b] not all [0xFF], [bytes_increment b] is the least
    exclusive upper bound of the strings that start with [b]: each of
    them sorts strictly below it, and no string below it sorts above
    all of them. *)
Theorem bytes_increment_least_upper_bound (b : bytes) :
  ¬ all_ff b →
  ∃ r, bytes_increment b = Returns (Some r) ∧
       (∀ t, b `prefix_of` t → bytes_lt t r) ∧
       (∀ u, bytes_lt u r → ¬ (∀ t, b `prefix_of` t → bytes_lt t u)).
Proof.
  intros Hb.
  destruct (bytes_increment_cases b) as [[Hall _]|(r & Hr & E)]; [done|].
  exists r. split; [done|]. split.
  - intros t [k ->]. by apply increments_sorts_after.
  - intros u Hu Hall.
    destruct Hr as (p & x & y & s & -> & _ & Hs & Hy & ->).
    destruct (increments_least p s u x y Hs Hy Hu) as (t & Hpre & Ht).
    specialize (Hall t Hpre). unfold bytes_lt in Hall. congruence.
Qed.

Lemma bytes_increment_least_upper_bound_witness :
  ∃ r, bytes_increment [x42; x42; xff; xff] = Returns (Some r) ∧
       (∀ t, [x42; x42; xff; xff] `prefix_of` t → bytes_lt t r) ∧
       (∀ u, bytes_lt u r →
             ¬ (∀ t, [x42; x42; xff; xff] `prefix_of` t → bytes_lt t u)).
Proof.
  apply (bytes_increment_least_upper_bound [x42; x42; xff; xff]).
  intros H. apply Forall_cons in H as [H _]. vm_compute in H. discriminate.
Defined.

End PyBytesFacts.

(** ** The retry wrappers *)

Module RetryFacts.
Import Retry.

Ltac unfold_M :=
  unfold mbind, mret, M_bind, M_ret, call, call_back, log_error, log_info,
    pull in *.

Section Facts.

Context {world args exn cls R value : Type}.
Variable isinstance : exn → cls → bool.
Variable iter_next : R → world → pulled (exn := exn) (value := value) * world.
Variable expected_exception : list cls.
Variable retry_count : Z.
Variable callback : option (callable (world := world) (args := args) (exn := exn) unit).
Variable func : callable (world := world) (args := args) (exn := exn) R.

Local Abbreviation expected := (matches isinstance expected_exception).
Local Abbreviation handler := (except_expected (R := R) retry_count callback).
Local Abbreviation loop :=
  (retryable_loop isinstance expected_exception retry_count callback func).
Local Abbreviation wrapper :=
  (retryable_wrapper isinstance expected_exception retry_count callback func).

(** *** The [except] block *)

Lemma except_expected_exhausted a i prev e w :
  (retry_count ≤ i)%Z →
  handler a i prev e w = (Raise e, w, [LogError (prev ++ [e])]).
Proof.
  intros Hi. unfold except_expected.
  destruct (Z.geb_spec i retry_count) as [_|?]; [done | lia].
Qed.

Lemma except_expected_retry a i prev e w w' :
  (i < retry_count)%Z → callback_returns callback a w w' →
  handler a i prev e w =
    (Return (prev ++ [e]), w',
     LogInfo e (retry_count - i) ::
       match callback with Some _ => [CalledBack a (Return tt)] | None => [] end).
Proof.
  intros Hi Hcb. unfold except_expected, callback_returns in *.
  destruct (Z.geb_spec i retry_count) as [?|_]; [lia|].
  destruct callback as [cb|]; unfold_M.
  - by rewrite Hcb.
  - by subst.
Qed.

Lemma except_expected_callback_raises a i prev e w cb e' w' :
  (i < retry_count)%Z → callback = Some cb → cb a w = (Raise e', w') →
  handler a i prev e w =
    (Raise e', w', [LogInfo e (retry_count - i); CalledBack a (Raise e')]).
Proof.
  intros Hi -> Hcb. unfold except_expected.
  destruct (Z.geb_spec i retry_count) as [?|_]; [lia|].
  unfold_M. by rewrite Hcb.
Qed.

(** Whatever the [except] block does, a raising callback is the last
    thing it does, and its exception leaves the block. *)
Lemma except_expected_trace a i prev e w h w' t :
  handler a i prev e w = (h, w', t) →
  callbacks_returned t ∨
  ∃ t0 e', t = t0 ++ [CalledBack a (Raise e')] ∧ callbacks_returned t0 ∧
           h = Raise e'.
Proof.
  unfold except_expected, callbacks_returned.
  destruct (i >=? retry_count)%Z; unfold_M.
  - intros [= <- <- <-]. left. by repeat constructor.
  - destruct callback as [cb|]; unfold_M.
    + destruct (cb a w) as [[u|e'] w1]; intros [= <- <- <-].
      * left. by repeat constructor.
      * right. exists [LogInfo e (retry_count - i)], e'.
        split; [done|]. split; [|done]. by repeat constructor.
    + intros [= <- <- <-]. left. by repeat constructor.
Qed.

(** *** One iteration of [retryable]'s loop *)

Lemma loop_return fuel a i prev w v w' :
  func a w = (Return v, w') →
  loop (S fuel) a i prev w = (Some (Return v), w', [Called a (Return v)]).
Proof. intros H. simpl. unfold_M. by rewrite H. Qed.

Lemma loop_unexpected fuel a i prev w e w' :
  func a w = (Raise e, w') → expected e = false →
  loop (S fuel) a i prev w = (Some (Raise e), w', [Called a (Raise e)]).
Proof. intros H Hm. simpl. unfold_M. by rewrite H, Hm. Qed.

Lemma loop_reraise fuel a i prev w e w1 e' w2 t :
  func a w = (Raise e, w1) → expected e = true →
  handler a i prev e w1 = (Raise e', w2, t) →
  loop (S fuel) a i prev w = (Some (Raise e'), w2, Called a (Raise e) :: t ++ []).
Proof. intros H Hm Hh. simpl. unfold_M. by rewrite H, Hm, Hh. Qed.

Lemma loop_retry fuel a i prev w e w1 prev' w2 t r w3 t' :
  func a w = (Raise e, w1) → expected e = true →
  handler a i prev e w1 = (Return prev', w2, t) →
  loop fuel a (i + 1) prev' w2 = (r, w3, t') →
  loop (S fuel) a i prev w = (r, w3, Called a (Raise e) :: t ++ t').
Proof. intros H Hm Hh Hl. simpl. unfold_M. by rewrite H, Hm, Hh, Hl. Qed.

(** The loop ends within [retry_count - i + 1] iterations: the fuel
    [retryable_wrapper] gives it is never used up. *)
Lemma retryable_loop_total fuel a i prev w :
  Z.to_nat (retry_count - i) < fuel →
  ∃ r w' t, loop fuel a i prev w = (Some r, w', t).
Proof.
  revert i prev w. induction fuel as [|fuel IH]; intros i prev w Hfuel; [lia|].
  destruct (func a w) as [[v|e] w1] eqn:Hf.
  { eexists _, _, _. by apply loop_return. }
  destruct (expected e) eqn:Hm.
  2:{ eexists _, _, _. by apply loop_unexpected. }
  destruct (handler a i prev e w1) as [[[prev'|e'] w2] t] eqn:Hh.
  2:{ eexists _, _, _. by eapply loop_reraise. }
  assert (i < retry_count)%Z as Hi.
  { destruct (Z.lt_ge_cases i retry_count) as [|Hge]; [done|].
    rewrite except_expected_exhausted in Hh by done. discriminate. }
  destruct (IH (i + 1)%Z prev' w2) as (r & w3 & t' & Hl); [lia|].
  eexists _, _, _. by eapply loop_retry.
Qed.

Lemma retryable_wrapper_total a w :
  ∃ r w' t, wrapper a w = (Some r, w', t).
Proof.
  unfold retryable_wrapper. apply retryable_loop_total.
  rewrite Z.sub_0_r. lia.
Qed.

(** *** An operation that always fails with an expected exception *)

Lemma retryable_loop_always_failing a :
  (∀ w, ∃ e w', func a w = (Raise e, w') ∧ expected e = true) →
  (∀ w, ∃ w', callback_returns callback a w w') →
  ∀ fuel i prev w,
    Z.to_nat (retry_count - i) < fuel →
    ∃ e w' t,
      loop fuel a i prev w = (Some (Raise e), w', t) ∧
      calls t = replicate (S (Z.to_nat (retry_count - i))) a ∧
      callbacks t =
        match callback with
        | Some _ => replicate (Z.to_nat (retry_count - i)) a
        | None => []
        end ∧
      length (raised t) = S (Z.to_nat (retry_count - i)) ∧
      last (raised t) = Some e ∧
      last t = Some (LogError (prev ++ raised t)).
Proof.
  intros Hfail Hcb.
  induction fuel as [|fuel IH]; intros i prev w Hfuel; [lia|].
  destruct (Hfail w) as (e & w1 & Hf & Hm).
  destruct (Z.lt_ge_cases i retry_count) as [Hi|Hi].
  - destruct (Hcb w1) as (w2 & Hcb2).
    destruct (IH (i + 1)%Z (prev ++ [e]) w2)
      as (e' & w3 & t' & Hl & Hc & Hb & Hlen & Hr & Hlast); [lia|].
    exists e', w3. eexists. split.
    { eapply loop_retry; [done | done | by apply except_expected_retry | done]. }
    replace (Z.to_nat (retry_count - i)) with (S (Z.to_nat (retry_count - (i + 1))))
      by lia.
    assert (∀ x : exn, last (x :: raised t') = Some e') as Hr'.
    { intros x. by rewrite last_cons, Hr. }
    assert (∀ (x : event (R := R)) l, last (x :: l ++ t') = last t') as Hlast'.
    { intros x l. change (x :: l ++ t') with ((x :: l) ++ t').
      rewrite last_app, Hlast. done. }
    rewrite Hlast', Hlast.
    unfold calls, callbacks, raised in *.
    destruct callback; cbn [omap list_omap app]; rewrite ?omap_app, ?Hc, ?Hb;
      cbn [omap list_omap app length]; rewrite ?Hlen, ?Hr', <- ?app_assoc;
      repeat split; done.
  - exists e, w1. eexists. split.
    { eapply loop_reraise; [done | done |].
      by apply except_expected_exhausted. }
    replace (Z.to_nat (retry_count - i)) with 0 by lia.
    destruct callback; repeat split; done.
Qed.

(** C1. When every invocation of the operation raises an expected
    exception, the callback (if there is one) returning each time, and
    [0 <= retry_count], the wrapper of [retryable] invokes the operation
    exactly [retry_count + 1] times, with the arguments of the call, and
    then raises the exception of the last of these invocations: the
    logged history is the exceptions of all the invocations in order and
    the one raised is its last entry.  The callback is invoked exactly
    [retry_count] times. *)
Theorem retryable_raises_last_after_budget a w :
  (0 ≤ retry_count)%Z →
  (∀ w, ∃ e w', func a w = (Raise e, w') ∧ expected e = true) →
  (∀ w, ∃ w', callback_returns callback a w w') →
  ∃ e w' t,
    wrapper a w = (Some (Raise e), w', t) ∧
    calls t = replicate (Z.to_nat (retry_count + 1)) a ∧
    length (raised t) = Z.to_nat (retry_count + 1) ∧
    last (raised t) = Some e ∧
    last t = Some (LogError (raised t)) ∧
    callbacks t =
      match callback with
      | Some _ => replicate (Z.to_nat retry_count) a
      | None => []
      end.
Proof.
  intros HN Hfail Hcb.
  destruct (retryable_loop_always_failing a Hfail Hcb
              (S (Z.to_nat retry_count)) 0%Z [] w)
    as (e & w' & t & Hl & Hc & Hb & Hlen & Hr & Hlast).
  { rewrite Z.sub_0_r. lia. }
  rewrite Z.sub_0_r in Hc, Hb, Hlen.
  exists e, w', t. unfold retryable_wrapper.
  replace (Z.to_nat (retry_count + 1)) with (S (Z.to_nat retry_count)) by lia.
  repeat split; done.
Qed.

(** C2. When the first invocation of the operation raises an exception
    that is not expected, the wrapper of [retryable] raises that same
    exception after this one invocation, whatever [retry_count] is: the
    operation is invoked once, the callback never. *)
Theorem retryable_unexpected_propagates a w e w' :
  func a w = (Raise e, w') → expected e = false →
  ∃ t, wrapper a w = (Some (Raise e), w', t) ∧
       t = [Called a (Raise e)] ∧ calls t = [a] ∧ callbacks t = [].
Proof.
  intros Hf Hm. eexists. split; [by apply loop_unexpected|]. done.
Qed.

(** C3. When the first invocation raises an expected exception and the
    second returns [v], with [1 <= retry_count] (and the callback, if
    there is one, returning), the wrapper of [retryable] returns [v]
    and has invoked the operation exactly twice, both times with the
    arguments of the call. *)
Theorem retryable_succeeds_on_second_attempt a w0 e w1 w2 v w3 :
  (1 ≤ retry_count)%Z →
  func a w0 = (Raise e, w1) → expected e = true →
  callback_returns callback a w1 w2 →
  func a w2 = (Return v, w3) →
  ∃ t, wrapper a w0 = (Some (Return v), w3, t) ∧ calls t = [a; a].
Proof.
  intros HN Hf1 Hm Hcb Hf2. unfold retryable_wrapper.
  destruct (Z.to_nat retry_count) as [|k] eqn:Hk; [lia|].
  eexists. split.
  - eapply loop_retry; [done | done | | by apply loop_return].
    apply except_expected_retry; [lia | done].
  - by destruct callback.
Qed.

(** *** One step of the generator of [retryable_generator] *)

Local Abbreviation gloop :=
  (generator_loop isinstance iter_next expected_exception retry_count callback func).
Local Abbreviation next :=
  (gen_next isinstance iter_next expected_exception retry_count callback func).

Lemma delegate_spec obj w p w' :
  iter_next obj w = (p, w') →
  delegate iter_next obj w =
    (p, match p return @generator args R with
        | Yielded _ => GenDelegating obj
        | _ => GenClosed
        end, w', []).
Proof. intros H. unfold delegate. unfold_M. rewrite H. by destruct p. Qed.

Lemma gloop_first_pull fuel a i prev w obj w1 p w2 :
  func a w = (Return obj, w1) → iter_next obj w1 = (p, w2) →
  match p with Yielded _ | Stopped => True | _ => False end →
  gloop (S fuel) a i prev w =
    (Some (p, match p return @generator args R with
              | Yielded _ => GenAtFirstYield obj
              | _ => GenClosed
              end),
     w2, [Called a (Return obj)]).
Proof.
  intros Hf Hp Hyes. simpl. unfold_M. rewrite Hf, Hp. by destruct p.
Qed.

Lemma gloop_unexpected fuel a i prev w obj w1 e w2 :
  func a w = (Return obj, w1) → iter_next obj w1 = (Raised e, w2) →
  expected e = false →
  gloop (S fuel) a i prev w =
    (Some (Raised e, GenClosed), w2, [Called a (Return obj)]).
Proof. intros Hf Hp Hm. simpl. unfold_M. by rewrite Hf, Hp, Hm. Qed.

Lemma gloop_retry fuel a i prev w obj w1 e w2 prev' w3 t r w4 t' :
  func a w = (Return obj, w1) → iter_next obj w1 = (Raised e, w2) →
  expected e = true →
  handler a i prev e w2 = (Return prev', w3, t) →
  gloop fuel a (i + 1) prev' w3 = (r, w4, t') →
  gloop (S fuel) a i prev w = (r, w4, Called a (Return obj) :: t ++ t').
Proof.
  intros Hf Hp Hm Hh Hl. simpl. unfold_M. by rewrite Hf, Hp, Hm, Hh, Hl.
Qed.

Lemma except_expected_returns a i prev e w prev' w' t :
  handler a i prev e w = (Return prev', w', t) → (i < retry_count)%Z.
Proof.
  intros Hh. destruct (Z.lt_ge_cases i retry_count) as [|Hge]; [done|].
  rewrite except_expected_exhausted in Hh by done. discriminate.
Qed.

(** The [except expected_exception] branch in a goal about the end of a
    loop: not expected, re-raised, or one more iteration ([IH]). *)
Ltac raise_branch IH :=
  match goal with
  | |- context [matches ?f ?l ?e] =>
      destruct (matches f l e); [|by eexists _, _, _]
  end;
  match goal with
  | |- context [except_expected ?n ?cb ?a ?i ?prev ?e ?w] =>
      let Hh := fresh "Hh" in
      let prev' := fresh "prev'" in
      let w2 := fresh "w2" in
      destruct (except_expected n cb a i prev e w) as [[[prev'|?] w2] ?] eqn:Hh;
      [apply except_expected_returns in Hh;
       let r := fresh "r" in let w3 := fresh "w3" in let t' := fresh "t'" in
       let Hl := fresh "Hl" in
       destruct (IH (i + 1)%Z prev' w2) as (r & w3 & t' & Hl); [lia|];
       rewrite Hl; by eexists _, _, _
      | by eexists _, _, _]
  end.

(** The loop of the generator ends within [retry_count - i + 1]
    iterations as well. *)
Lemma generator_loop_total fuel a i prev w :
  Z.to_nat (retry_count - i) < fuel →
  ∃ r w' t, gloop fuel a i prev w = (Some r, w', t).
Proof.
  revert i prev w. induction fuel as [|fuel IH]; intros i prev w Hfuel; [lia|].
  simpl. unfold_M.
  destruct (func a w) as [[obj|e] w1]; [destruct (iter_next obj w1) as [[v| | |e] w2]|].
  - by eexists _, _, _.
  - by eexists _, _, _.
  - unfold delegate. unfold_M.
    destruct (iter_next obj w2) as [[v| | |e] w3]; by eexists _, _, _.
  - raise_branch IH.
  - raise_branch IH.
Qed.

Lemma gen_next_total g w :
  ∃ r w' t, next g w = (Some r, w', t).
Proof.
  destruct g as [a|obj|obj|]; cbn [gen_next].
  - apply generator_loop_total. rewrite Z.sub_0_r. lia.
  - unfold_M. destruct (delegate iter_next obj w) as [[x w'] t]. by eexists _, _, _.
  - unfold_M. destruct (delegate iter_next obj w) as [[x w'] t]. by eexists _, _, _.
  - by eexists _, _, _.
Qed.

(** C4. When the first element asked of the first iterator raises an
    expected exception, and the operation invoked again returns an
    iterator that yields [va], [vb], [vc] and stops, with
    [1 <= retry_count] (and the callback, if there is one, returning),
    the generator of [retryable_generator] yields [va], [vb], [vc] in
    this order and stops, the operation having been invoked exactly
    twice.  Once the first element has been yielded, an exception
    raised by the iterator leaves the generator at once, whether
    expected or not, nothing being invoked or logged. *)
Theorem generator_retries_first_element_only :
  (∀ a w0 obj1 w1 e w2 w3 obj2 w4 va w5 vb w6 vc w7 w8,
     (1 ≤ retry_count)%Z →
     func a w0 = (Return obj1, w1) →
     iter_next obj1 w1 = (Raised e, w2) → expected e = true →
     callback_returns callback a w2 w3 →
     func a w3 = (Return obj2, w4) →
     iter_next obj2 w4 = (Yielded va, w5) →
     iter_next obj2 w5 = (Yielded vb, w6) →
     iter_next obj2 w6 = (Yielded vc, w7) →
     iter_next obj2 w7 = (Stopped, w8) →
     ∃ t, pulls next 4 (GenCreated a) w0 =
            (Some ([Yielded va; Yielded vb; Yielded vc; Stopped], GenClosed),
             w8, t) ∧
          calls t = [a; a]) ∧
  (∀ g obj w e w',
     g = GenAtFirstYield obj ∨ g = GenDelegating obj →
     iter_next obj w = (Raised e, w') →
     next g w = (Some (Raised e, GenClosed), w', [])).
Proof.
  split.
  - intros a w0 obj1 w1 e w2 w3 obj2 w4 va w5 vb w6 vc w7 w8
      HN Hf1 Hp1 Hm Hcb Hf2 Ha Hb Hc Hstop.
    assert (∃ t, next (GenCreated a) w0 =
                   (Some (Yielded va, GenAtFirstYield obj2), w5, t) ∧
                 calls t = [a; a]) as (t & Hfirst & Hcalls).
    { cbn [gen_next]. destruct (Z.to_nat retry_count) as [|k] eqn:Hk; [lia|].
      eexists. split.
      - eapply gloop_retry; [done | done | done | |].
        + apply except_expected_retry; [lia | done].
        + by apply (gloop_first_pull k a _ _ w3 obj2 w4 (Yielded va) w5).
      - by destruct callback. }
    exists (t ++ []). split; [|by rewrite app_nil_r].
    cbn [pulls]. unfold mbind at 1, M_bind at 1. rewrite Hfirst.
    cbn [gen_next]. unfold_M.
    rewrite (delegate_spec _ _ _ _ Hb). cbn [gen_next]. unfold_M.
    rewrite (delegate_spec _ _ _ _ Hc). cbn [gen_next]. unfold_M.
    rewrite (delegate_spec _ _ _ _ Hstop). done.
  - intros g obj w e w' [-> | ->] Hp; simpl; unfold_M;
      by rewrite (delegate_spec _ _ _ _ Hp).
Qed.

(** C9, as the code has it.  When the iterator the operation returned
    stops without an element, the generator of [retryable_generator]
    finishes normally, having yielded nothing.  When the first element
    asked of it raises an exception that is not expected, that
    exception leaves the generator: the consumer's [next] raises it,
    nothing having been yielded, retried or called back. *)
Theorem generator_first_element_stop_or_unexpected :
  (∀ a w0 obj w1 w2,
     func a w0 = (Return obj, w1) → iter_next obj w1 = (Stopped, w2) →
     next (GenCreated a) w0 =
       (Some (Stopped, GenClosed), w2, [Called a (Return obj)])) ∧
  (∀ a w0 obj w1 e w2,
     func a w0 = (Return obj, w1) → iter_next obj w1 = (Raised e, w2) →
     expected e = false →
     next (GenCreated a) w0 =
       (Some (Raised e, GenClosed), w2, [Called a (Return obj)])).
Proof.
  split.
  - intros a w0 obj w1 w2 Hf Hp.
    by apply (gloop_first_pull _ a _ _ w0 obj w1 Stopped w2).
  - intros a w0 obj w1 e w2 Hf Hp Hm. by apply (gloop_unexpected _ a _ _ w0 obj w1).
Qed.

(** *** A callback that raises *)

Lemma settled_cons {A} (x : event (args := args) (exn := exn) (R := R)) th t'
    (r : option A) raise_of :
  callbacks_returned (x :: th) →
  settled t' r raise_of → settled (x :: th ++ t') r raise_of.
Proof.
  intros Hx [Hq | (t0 & a' & e' & -> & Hq & ->)].
  - left. change (x :: th ++ t') with ((x :: th) ++ t').
    by apply Forall_app.
  - right. exists (x :: th ++ t0), a', e'.
    split; [simpl; by rewrite app_assoc|]. split; [|done].
    change (x :: th ++ t0) with ((x :: th) ++ t0). by apply Forall_app.
Qed.

Lemma settled_handler {A} (x : event (args := args) (exn := exn) (R := R))
    a i prev e w e' w' t (raise_of : exn → A) :
  (∀ a0 e0, x ≠ CalledBack a0 (Raise e0)) →
  handler a i prev e w = (Raise e', w', t) →
  settled (x :: t ++ []) (Some (raise_of e')) raise_of.
Proof.
  intros Hx Hh. rewrite app_nil_r.
  destruct (except_expected_trace _ _ _ _ _ _ _ _ Hh)
    as [Hq | (t0 & e0 & -> & Hq & [= ->])].
  - left. by constructor.
  - right. exists (x :: t0), a, e0. split; [done|]. split; [|done].
    by constructor.
Qed.

Lemma handler_returns_quiet a i prev e w prev' w' t :
  handler a i prev e w = (Return prev', w', t) → callbacks_returned t.
Proof.
  intros Hh.
  by destruct (except_expected_trace _ _ _ _ _ _ _ _ Hh)
    as [Hq | (t0 & e0 & _ & _ & ?)].
Qed.

Lemma retryable_loop_settled fuel a i prev w r w' t :
  loop fuel a i prev w = (r, w', t) → settled t r (Raise (A := R)).
Proof.
  revert i prev w r w' t.
  induction fuel as [|fuel IH]; intros i prev w r w' t.
  { intros [= <- <- <-]. left. constructor. }
  simpl. unfold_M.
  destruct (func a w) as [[v|e] w1].
  { intros [= <- <- <-]. left. by repeat constructor. }
  destruct (expected e).
  2:{ intros [= <- <- <-]. left. by repeat constructor. }
  destruct (handler a i prev e w1) as [[[prev'|e'] w2] th] eqn:Hh.
  - destruct (loop fuel a (i + 1) prev' w2) as [[r' w3] t'] eqn:Hl.
    intros [= <- <- <-]. apply settled_cons; [|by eapply IH].
    constructor; [done|]. by eapply handler_returns_quiet.
  - intros [= <- <- <-]. by eapply settled_handler.
Qed.

Lemma generator_loop_settled fuel a i prev w r w' t :
  gloop fuel a i prev w = (r, w', t) →
  settled t r (λ e', (Raised e', GenClosed (args := args) (R := R))).
Proof.
  revert i prev w r w' t.
  induction fuel as [|fuel IH]; intros i prev w r w' t.
  { intros [= <- <- <-]. left. constructor. }
  simpl. unfold_M.
  destruct (func a w) as [[obj|e] w1]; [destruct (iter_next obj w1) as [[v| | |e] w2]|].
  - intros [= <- <- <-]. left. by repeat constructor.
  - intros [= <- <- <-]. left. by repeat constructor.
  - unfold delegate. unfold_M.
    destruct (iter_next obj w2) as [[v| | |e] w3];
      intros [= <- <- <-]; left; by repeat constructor.
  - destruct (expected e).
    2:{ intros [= <- <- <-]. left. by repeat constructor. }
    destruct (handler a i prev e w2) as [[[prev'|e'] w3] th] eqn:Hh.
    + destruct (gloop fuel a (i + 1) prev' w3) as [[r' w4] t'] eqn:Hl.
      intros [= <- <- <-]. cbn [app]. apply settled_cons; [|by eapply IH].
      constructor; [done|]. by eapply handler_returns_quiet.
    + intros [= <- <- <-]. cbn [app]. by eapply (settled_handler _ _ _ _ _ _ _ _ _ (λ e', (Raised e', GenClosed))).
  - destruct (expected e).
    2:{ intros [= <- <- <-]. left. by repeat constructor. }
    destruct (handler a i prev e w1) as [[[prev'|e'] w3] th] eqn:Hh.
    + destruct (gloop fuel a (i + 1) prev' w3) as [[r' w4] t'] eqn:Hl.
      intros [= <- <- <-]. apply settled_cons; [|by eapply IH].
      constructor; [done|]. by eapply handler_returns_quiet.
    + intros [= <- <- <-]. by eapply (settled_handler _ _ _ _ _ _ _ _ _ (λ e', (Raised e', GenClosed))).
Qed.

(** In a settled trace, an invocation of the callback that raised has
    nothing after it. *)
Lemma settled_last {A} (t : list (event (args := args) (exn := exn) (R := R)))
    (r : option A) raise_of t1 a' e' t2 :
  settled t r raise_of →
  t = t1 ++ CalledBack a' (Raise e') :: t2 →
  t2 = [] ∧ r = Some (raise_of e').
Proof.
  intros [Hq | (t0 & a0 & e0 & -> & Hq & ->)] Ht.
  - subst t. apply Forall_app in Hq as [_ Hq].
    apply Forall_cons in Hq as [Hq _]. by destruct (Hq a' e').
  - revert t1 Ht. induction t0 as [|x t0 IH]; intros t1 Ht.
    + destruct t1 as [|y t1]; simplify_eq/=; [done|].
      by destruct t1.
    + apply Forall_cons in Hq as [Hx Hq].
      destruct t1 as [|y t1]; simplify_eq/=.
      * by destruct (Hx a' e').
      * by eapply IH.
Qed.

(** C10. In any call of the wrapper of [retryable], and in any [next]
    on the generator of [retryable_generator], an invocation of the
    callback that raises [e'] is the last thing that happens — the
    operation is not invoked again, nothing more is logged — and [e']
    is what the call raises; whether [e'] is expected and whether
    retries remain plays no part. *)
Theorem callback_error_aborts_retrying :
  (∀ a w r w' t t1 a' e' t2,
     retryable_wrapper isinstance expected_exception retry_count callback func
       a w = (r, w', t) →
     t = t1 ++ CalledBack a' (Raise e') :: t2 →
     t2 = [] ∧ r = Some (Raise e')) ∧
  (∀ g w r w' t t1 a' e' t2,
     gen_next isinstance iter_next expected_exception retry_count callback func
       g w = (r, w', t) →
     t = t1 ++ CalledBack a' (Raise e') :: t2 →
     t2 = [] ∧ r = Some (Raised e', GenClosed)).
Proof.
  split.
  - intros a w r w' t t1 a' e' t2 Hrun Ht.
    eapply settled_last; [|done].
    by eapply retryable_loop_settled.
  - intros g w r w' t t1 a' e' t2 Hrun Ht.
    destruct g as [a|obj|obj|]; cbn [gen_next] in Hrun.
    + eapply (settled_last _ _ (λ e', (Raised e', GenClosed))); [|done].
      by eapply generator_loop_settled.
    + unfold_M. destruct (delegate iter_next obj w) as [[x w1] td] eqn:Hd.
      unfold delegate in Hd. unfold_M.
      destruct (iter_next obj w) as [[v| | |e] w2]; simplify_eq/=;
        by destruct t1 as [|? [|? ?]].
    + unfold_M. destruct (delegate iter_next obj w) as [[x w1] td] eqn:Hd.
      unfold delegate in Hd. unfold_M.
      destruct (iter_next obj w) as [[v| | |e] w2]; simplify_eq/=;
        by destruct t1 as [|? [|? ?]].
    + unfold_M. simplify_eq/=. by destruct t1.
Qed.

End Facts.

(** *** The claims on test doubles *)

Import Mock.

(** [test_retryable__once], [test_retryable__twice_error],
    [test_retryable__once_but_different] and
    [test_retryable__twice_error_still_working] of the test suite. *)
Example test_retryable_once :
  retryable_wrapper isinstance [ValueError] 1 None failing_once a0 w0 =
    (Some (Return 42%Z), (2, 0),
     [Called a0 (Raise (Exc ValueError 0)); LogInfo (Exc ValueError 0) 1;
      Called a0 (Return 42%Z)]).
Proof. reflexivity. Qed.

Example test_retryable_twice_error :
  retryable_wrapper isinstance [ValueError] 1 None (always_failing (R := Z)) a0 w0 =
    (Some (Raise (Exc ValueError 1)), (2, 0),
     [Called a0 (Raise (Exc ValueError 0)); LogInfo (Exc ValueError 0) 1;
      Called a0 (Raise (Exc ValueError 1));
      LogError [Exc ValueError 0; Exc ValueError 1]]).
Proof. reflexivity. Qed.

Example test_retryable_once_but_different :
  retryable_wrapper isinstance [ValueError] 1 None failing_otherwise a0 w0 =
    (Some (Raise (Exc NotImplementedError 0)), (1, 0),
     [Called a0 (Raise (Exc NotImplementedError 0))]).
Proof. reflexivity. Qed.

Lemma retryable_raises_last_after_budget_witness :
  ∃ e w' t,
    retryable_wrapper isinstance [ValueError] 2 (Some callback_ok)
      (always_failing (R := Z)) a0 w0 = (Some (Raise e), w', t) ∧
    calls t = replicate (Z.to_nat (2 + 1)) a0 ∧
    length (raised t) = Z.to_nat (2 + 1) ∧
    last (raised t) = Some e ∧
    last t = Some (LogError (raised t)) ∧
    callbacks t = replicate (Z.to_nat 2) a0.
Proof.
  apply (retryable_raises_last_after_budget isinstance [ValueError] 2
           (Some callback_ok) (always_failing (R := Z)) a0 w0).
  - lia.
  - intros w. eexists _, _. split; reflexivity.
  - intros w. exists w. reflexivity.
Defined.

Lemma retryable_unexpected_propagates_witness :
  ∃ t,
    retryable_wrapper isinstance [ValueError] 3 (Some callback_ok)
      failing_otherwise a0 w0 =
      (Some (Raise (Exc NotImplementedError 0)), (1, 0), t) ∧
    t = [Called a0 (Raise (Exc NotImplementedError 0))] ∧
    calls t = [a0] ∧ callbacks t = [].
Proof.
  apply (retryable_unexpected_propagates isinstance [ValueError] 3
           (Some callback_ok) failing_otherwise a0 w0);
    reflexivity.
Defined.

Lemma retryable_succeeds_on_second_attempt_witness :
  ∃ t,
    retryable_wrapper isinstance [ValueError] 1 (Some callback_ok)
      failing_once a0 w0 = (Some (Return 42%Z), (2, 0), t) ∧
    calls t = [a0; a0].
Proof.
  apply (retryable_succeeds_on_second_attempt isinstance [ValueError] 1
           (Some callback_ok) failing_once a0 w0
           (Exc ValueError 0) (1, 0) (1, 0) 42%Z (2, 0));
    [lia | reflexivity..].
Defined.

Lemma generator_retries_first_element_only_witness :
  (∃ t,
     pulls (gen_next isinstance (iter_next plan_retry) [ValueError] 1 None producer)
       4 (GenCreated a0) w0 =
       (Some ([Yielded 1%Z; Yielded 2%Z; Yielded 3%Z; Stopped], GenClosed),
        (2, 4), t) ∧
     calls t = [a0; a0]) ∧
  gen_next isinstance (iter_next plan_breaks) [ValueError] 5 None producer
    (GenAtFirstYield 0) (1, 1) =
    (Some (Raised (Exc ValueError 0), GenClosed), (1, 2), []).
Proof.
  split.
  - apply (proj1 (generator_retries_first_element_only isinstance
                    (iter_next plan_retry) [ValueError] 1 None producer)
             a0 w0 0 (1, 0) (Exc ValueError 0) (1, 1) (1, 1) 1 (2, 0)
             1%Z (2, 1) 2%Z (2, 2) 3%Z (2, 3) (2, 4));
      [lia | reflexivity..].
  - apply (proj2 (generator_retries_first_element_only isinstance
                    (iter_next plan_breaks) [ValueError] 5 None producer)
             (GenAtFirstYield 0) 0 (1, 1) (Exc ValueError 0) (1, 2));
      [by left | reflexivity].
Defined.

Lemma generator_first_element_stop_or_unexpected_witness :
  gen_next isinstance (iter_next plan_empty) [ValueError] 1 None producer
    (GenCreated a0) w0 =
    (Some (Stopped, GenClosed), (1, 1), [Called a0 (Return 0)]) ∧
  gen_next isinstance (iter_next plan_unexpected) [ValueError] 1 None producer
    (GenCreated a0) w0 =
    (Some (Raised (Exc NotImplementedError 0), GenClosed), (1, 1),
     [Called a0 (Return 0)]).
Proof.
  split.
  - apply (proj1 (generator_first_element_stop_or_unexpected isinstance
                    (iter_next plan_empty) [ValueError] 1 None producer)
             a0 w0 0 (1, 0) (1, 1)); reflexivity.
  - apply (proj2 (generator_first_element_stop_or_unexpected isinstance
                    (iter_next plan_unexpected) [ValueError] 1 None producer)
             a0 w0 0 (1, 0) (Exc NotImplementedError 0) (1, 1)); reflexivity.
Defined.

(** C9 as the specification words it fails: the first element raises an
    exception that is not expected, and the consumer's [next] raises it
    instead of finding the sequence finished. *)
Lemma generator_unexpected_first_error_is_raised :
  producer a0 w0 = (Return 0, (1, 0)) ∧
  iter_next plan_unexpected 0 (1, 0) =
    (Raised (Exc NotImplementedError 0), (1, 1)) ∧
  matches isinstance [ValueError] (Exc NotImplementedError 0) = false ∧
  gen_next isinstance (iter_next plan_unexpected) [ValueError] 1 None producer
    (GenCreated a0) w0 =
    (Some (Raised (Exc NotImplementedError 0), GenClosed), (1, 1),
     [Called a0 (Return 0)]) ∧
  (gen_next isinstance (iter_next plan_unexpected) [ValueError] 1 None producer
     (GenCreated a0) w0).1.1 ≠ Some (Stopped, GenClosed).
Proof. repeat split; try reflexivity. intros [=]. Qed.

(** The callback raises a [ValueError], which [Exception] covers, with
    five retries allowed: the operation is invoked once. *)
Lemma callback_error_aborts_retrying_witness :
  (retryable_wrapper isinstance [Exception] 5
     (Some (callback_raising (Exc ValueError 7))) (always_failing (R := nat))
     a0 w0).1.1 = Some (Raise (Exc ValueError 7)) ∧
  (gen_next isinstance (iter_next plan_retry) [Exception] 5
     (Some (callback_raising (Exc ValueError 7))) producer (GenCreated a0)
     w0).1.1 = Some (Raised (Exc ValueError 7), GenClosed).
Proof.
  split.
  - eapply (proj1 (callback_error_aborts_retrying isinstance
                     (iter_next plan_retry) [Exception] 5
                     (Some (callback_raising (Exc ValueError 7)))
                     always_failing)
              a0 w0 _ (1, 0)
              [Called a0 (Raise (Exc ValueError 0)); LogInfo (Exc ValueError 0) 5;
               CalledBack a0 (Raise (Exc ValueError 7))]
              [Called a0 (Raise (Exc ValueError 0)); LogInfo (Exc ValueError 0) 5]
              a0 (Exc ValueError 7) []); reflexivity.
  - eapply (proj2 (callback_error_aborts_retrying isinstance
                     (iter_next plan_retry) [Exception] 5
                     (Some (callback_raising (Exc ValueError 7)))
                     producer)
              (GenCreated a0) w0 _ (1, 1)
              [Called a0 (Return 0); LogInfo (Exc ValueError 0) 5;
               CalledBack a0 (Raise (Exc ValueError 7))]
              [Called a0 (Return 0); LogInfo (Exc ValueError 0) 5]
              a0 (Exc ValueError 7) []); reflexivity.
Defined.

(** C5. Called without an operation, [retryable_generator] returns
    [partial(retryable, ...)]: applied to an operation it gives
    [retryable]'s wrapper, not the generator.  For an operation whose
    first iterator raises an expected exception on its first element,
    the two differ: decorated through the [partial], the consumer's
    first [next] raises after one invocation; decorated directly, it
    yields the first element of the second iterator. *)
Theorem retryable_generator_partial_is_retryable :
  (∀ (world args exn cls R value : Type) (isinstance : exn → cls → bool)
     (iter_next : R → world → pulled (exn := exn) (value := value) * world)
     (expected_exception : list cls) (retry_count : Z)
     (callback : option (callable (world := world) (args := args) (exn := exn) unit)),
     retryable_generator isinstance iter_next expected_exception retry_count
       callback None =
       inl (Partial retryable_fn expected_exception retry_count callback) ∧
     ∀ f : callable R,
       partial_call isinstance iter_next
         (Partial retryable_fn expected_exception retry_count callback) f =
         inr (CallWrapper
                (retryable_wrapper isinstance expected_exception retry_count
                   callback f))) ∧
  (∃ p configured direct,
     retryable_generator isinstance (iter_next plan_retry) [ValueError] 1 None
       None = inl p ∧
     partial_call isinstance (iter_next plan_retry) p producer = inr configured ∧
     retryable_generator isinstance (iter_next plan_retry) [ValueError] 1 None
       (Some producer) = inr direct ∧
     first_element (iter_next plan_retry) configured a0 w0 =
       (Some (Raised (Exc ValueError 0)), (1, 1), [Called a0 (Return 0)]) ∧
     first_element (iter_next plan_retry) direct a0 w0 =
       (Some (Yielded 1%Z), (2, 1),
        [Called a0 (Return 0); LogInfo (Exc ValueError 0) 1;
         Called a0 (Return 1)])).
Proof.
  split.
  - intros. split; [reflexivity|]. intros f. reflexivity.
  - eexists _, _, _. repeat split; reflexivity.
Qed.

End RetryFacts.

(** ** More on [bytes_increment]: the range of a prefix *)

Module PyBytesRange.
Import PyBytes PyBytesFacts.

Lemma bytes_ltb_app_nil (b k : bytes) : bytes_ltb (b ++ k) b = false.
Proof.
  rewrite <- (app_nil_r b) at 2. rewrite bytes_ltb_app_l. apply bytes_ltb_nil_r.
Qed.

(** A string that is not below a string of [0xFF] bytes starts with it. *)
Lemma all_ff_prefix (s t : bytes) :
  all_ff s → bytes_ltb t s = false → s `prefix_of` t.
Proof.
  revert t. induction s as [|f s IH]; intros t Hs Ht.
  - apply prefix_nil.
  - apply Forall_cons in Hs as [Hf Hs].
    destruct t as [|c t]; [done|]. simpl in Ht.
    pose proof (ord_lt_256 c) as Hc. rewrite Hf in Ht.
    destruct (N.compare_spec (ord c) 0xff) as [E|E|E]; try done.
    + assert (c = f) as -> by (apply ord_inj; congruence).
      apply prefix_cons. by apply IH.
    + change 0xff%N with 255%N in E. lia.
Qed.

Lemma increments_range (b r t : bytes) :
  increments_last_below_ff b r →
  bytes_ltb t b = false → bytes_lt t r → b `prefix_of` t.
Proof.
  intros (p & x & y & s & -> & Hx & Hs & Hy & ->). unfold bytes_lt.
  revert t. induction p as [|a p IH]; intros t Hlow Hup.
  - destruct t as [|c t]; [done|]. simpl in *. rewrite Hy in Hup.
    destruct (N.compare_spec (ord c) (ord x)) as [E|E|E]; try done.
    + apply ord_inj in E as ->. apply prefix_cons. by apply all_ff_prefix.
    + destruct (N.compare_spec (ord c) (ord x + 1)) as [E'|E'|E']; try done.
      * by rewrite bytes_ltb_nil_r in Hup.
      * lia.
  - destruct t as [|c t]; [done|]. simpl in *.
    destruct (N.compare_spec (ord c) (ord a)) as [E|E|E]; try done.
    apply ord_inj in E as ->. apply prefix_cons. by apply IH.
Qed.

(** X1. On a byte string, [bytes_increment] never raises: the loop never
    indexes out of range ([IndexError]) and never stores 256 in a byte
    ([ValueError]). *)
Theorem bytes_increment_never_raises (b : bytes) (err : error) :
  bytes_increment b ≠ Raises err.
Proof.
  destruct (bytes_increment_cases b) as [[_ E]|(r & _ & E)]; by rewrite E.
Qed.

(** X2. When [bytes_increment b] returns [r], the strings [t] with
    [b <= t < r] are exactly the strings that start with [b]: a scan
    from [b] up to [r], [r] excluded, meets every key with the prefix
    [b] and no other key. *)
Theorem bytes_increment_prefix_range (b r t : bytes) :
  bytes_increment b = Returns (Some r) →
  b `prefix_of` t ↔ bytes_ltb t b = false ∧ bytes_lt t r.
Proof.
  intros E.
  destruct (bytes_increment_cases b) as [[_ E']|(r' & Hr & E')];
    rewrite E' in E; simplify_eq.
  split.
  - intros [k ->]. split; [apply bytes_ltb_app_nil|].
    by apply increments_sorts_after.
  - intros [Hlow Hup]. by eapply increments_range.
Qed.

Lemma bytes_increment_prefix_range_witness :
  [x12; xff] `prefix_of` [x12; xff; x00; x07] ↔
  bytes_ltb [x12; xff; x00; x07] [x12; xff] = false ∧
  bytes_lt [x12; xff; x00; x07] [x13].
Proof.
  apply (bytes_increment_prefix_range [x12; xff] [x13] [x12; xff; x00; x07]).
  reflexivity.
Defined.

(** X3. When [bytes_increment b] returns [None], the strings that
    start with [b] have no upper bound at all: whatever [u] is, one of
    them is not below [u]. *)
Theorem bytes_increment_none_unbounded (b u : bytes) :
  bytes_increment b = Returns None →
  ∃ t, b `prefix_of` t ∧ ¬ bytes_lt t u.
Proof.
  intros E.
  destruct (bytes_increment_cases b) as [[Hall _]|(r & _ & E')];
    [|rewrite E' in E; discriminate].
  exists (b ++ replicate (length u) xff). split; [by eexists|].
  unfold bytes_lt. rewrite all_ff_not_below; [done| |].
  - apply Forall_app. split; [done|]. by apply Forall_replicate.
  - rewrite length_app, length_replicate. lia.
Qed.

Lemma bytes_increment_none_unbounded_witness :
  ∃ t, [xff; xff; xff] `prefix_of` t ∧ ¬ bytes_lt t [xff; xff; xff; xff; x01].
Proof.
  apply (bytes_increment_none_unbounded [xff; xff; xff] [xff; xff; xff; xff; x01]).
  reflexivity.
Defined.

(** X4. Trailing [0xFF] bytes do not count: [bytes_increment] gives
    the same result with any number of them appended. *)
Theorem bytes_increment_trailing_ff (b : bytes) (k : nat) :
  bytes_increment (b ++ replicate k xff) = bytes_increment b.
Proof.
  induction k as [|k IH].
  - by rewrite app_nil_r.
  - rewrite replicate_S_end, app_assoc, bytes_increment_snoc. done.
Qed.

End PyBytesRange.

(** ** The naming conventions *)

Module PyStrFacts.
Import PyStr.

Lemma split_cons_inv sep s : ∃ chunk chunks, split sep s = chunk :: chunks.
Proof.
  induction s as [|c s (chunk & chunks & IH)]; simpl; [by eauto|].
  destruct (c =? sep)%N; [by eauto|]. rewrite IH. by eauto.
Qed.

Lemma is_capital_spec c : is_capital c = true ↔ (65 ≤ c ≤ 90)%N.
Proof. unfold is_capital. rewrite andb_true_iff, !N.leb_le. done. Qed.

Lemma is_small_spec c : is_small c = true ↔ (97 ≤ c ≤ 122)%N.
Proof. unfold is_small. rewrite andb_true_iff, !N.leb_le. done. Qed.

Lemma is_capital_false c : is_capital c = false ↔ ¬ (65 ≤ c ≤ 90)%N.
Proof. rewrite <- is_capital_spec. by destruct (is_capital c). Qed.

Lemma plain_lower s : plain s → ascii_lower <$> s = s.
Proof.
  induction 1 as [|c s (_ & Hc & _) _ IH]; [done|].
  rewrite fmap_cons, IH. unfold ascii_lower. by rewrite Hc.
Qed.

Lemma plain_ascii s : plain s → is_ascii s.
Proof.
  unfold plain, is_ascii. intros H.
  eapply Forall_impl; [exact H|]. by intros c (? & _).
Qed.

(** Where [split] gives an empty chunk: at the front, ... *)
Lemma split_head_nil sep s :
  (∃ chunks, split sep s = [] :: chunks) ↔ s = [] ∨ head s = Some sep.
Proof.
  destruct s as [|c s]; simpl.
  { split; [by left | by eauto]. }
  destruct (N.eqb_spec c sep) as [->|Hc].
  - split; [by right | by eauto].
  - destruct (split_cons_inv sep s) as (chunk & chunks & ->).
    split; [by intros [? [=]] | intros [[=] | [=]]; done].
Qed.

(** ... or further on, after a separator that ends the string or is
    followed by another one. *)
Lemma split_tail_nil sep s :
  [] ∈ tail (split sep s) ↔
  last s = Some sep ∨ ∃ l1 l2, s = l1 ++ sep :: sep :: l2.
Proof.
  induction s as [|c s IH]; simpl.
  { split; [by intros ?%elem_of_nil|].
    intros [[=] | (l1 & l2 & E)]. by destruct l1. }
  destruct (split_cons_inv sep s) as (chunk & chunks & Hsplit).
  rewrite Hsplit in IH |- *. simpl in IH.
  destruct (N.eqb_spec c sep) as [->|Hc]; simpl.
  - rewrite elem_of_cons, IH. split.
    + intros [E | [Hlast | (l1 & l2 & ->)]].
      * assert (s = [] ∨ head s = Some sep) as [-> | Hhead].
        { apply split_head_nil. exists chunks. by rewrite Hsplit, <- E. }
        -- by left.
        -- right. exists [], (tail s). destruct s; simplify_eq/=. done.
      * left. by rewrite last_cons, Hlast.
      * right. by exists (sep :: l1), l2.
    + intros [Hlast | (l1 & l2 & E)].
      * rewrite last_cons in Hlast. destruct (last s) as [y|] eqn:Hl.
        -- right. left. congruence.
        -- left. apply last_None in Hl as ->. simpl in Hsplit. congruence.
      * destruct l1 as [|x l1]; simplify_eq/=.
        -- left. destruct (N.eqb_spec sep sep); [congruence | done].
        -- right. right. by exists l1, l2.
  - rewrite IH. split.
    + intros [Hlast | (l1 & l2 & ->)].
      * left. by rewrite last_cons, Hlast.
      * right. by exists (c :: l1), l2.
    + intros [Hlast | (l1 & l2 & E)].
      * rewrite last_cons in Hlast. destruct (last s) as [y|] eqn:Hl.
        -- left. congruence.
        -- congruence.
      * destruct l1 as [|x l1]; simplify_eq/=. right. by exists l1, l2.
Qed.

Lemma split_elem_nil sep s :
  [] ∈ split sep s ↔
  s = [] ∨ head s = Some sep ∨ last s = Some sep ∨
  ∃ l1 l2, s = l1 ++ sep :: sep :: l2.
Proof.
  destruct (split_cons_inv sep s) as (chunk & chunks & Hsplit).
  pose proof (split_tail_nil sep s) as Htail.
  pose proof (split_head_nil sep s) as Hhead.
  rewrite Hsplit in *. simpl in Htail. rewrite elem_of_cons, Htail.
  split.
  - intros [E | H]; [|tauto].
    assert (s = [] ∨ head s = Some sep) by (apply Hhead; exists chunks; congruence).
    tauto.
  - intros [H | [H | H]]; [| |tauto].
    + left. destruct Hhead as [_ Hhead]. destruct Hhead as (? & [=]); auto.
    + left. destruct Hhead as [_ Hhead]. destruct Hhead as (? & [=]); auto.
Qed.

Lemma lower_ascii_only_ok : lower_on_ascii lower_ascii_only.
Proof. by intros s _. Qed.

Lemma upper_ascii_only_ok : upper_on_ascii upper_ascii_only.
Proof. by intros s _. Qed.

Lemma split_app_plain sep w s :
  Forall (λ c, c ≠ sep) w →
  split sep (w ++ s) =
    match split sep s with
    | chunk :: chunks => (w ++ chunk) :: chunks
    | [] => [w]
    end.
Proof.
  induction 1 as [|c w Hc _ IH]; simpl.
  { by destruct (split_cons_inv sep s) as (chunk & chunks & ->). }
  destruct (N.eqb_spec c sep) as [?|_]; [done|].
  rewrite IH. by destruct (split_cons_inv sep s) as (chunk & chunks & ->).
Qed.

Lemma split_join sep w ws :
  Forall (Forall (λ c, c ≠ sep)) (w :: ws) →
  split sep (join sep (w :: ws)) = w :: ws.
Proof.
  intros [Hw Hws]%Forall_cons. unfold join.
  assert (split sep (flat_map (λ x, sep :: x) ws) = [] :: ws) as Hflat.
  { induction Hws as [|x ws Hx _ IH]; [done|].
    simpl. rewrite N.eqb_refl, split_app_plain, IH by done.
    by rewrite app_nil_r. }
  rewrite split_app_plain, Hflat by done. by rewrite app_nil_r.
Qed.

Lemma pep8_word_plain w : pep8_word w → plain w.
Proof.
  intros (l & rest & -> & Hl & Hrest). constructor; [|done].
  apply is_small_spec in Hl. repeat split.
  - lia.
  - apply is_capital_false. lia.
  - unfold underscore. lia.
Qed.

Lemma plain_no_sep w : plain w → Forall (λ c, c ≠ underscore) w.
Proof.
  unfold plain. intros H. eapply Forall_impl; [exact H|]. by intros c (_ & _ & ?).
Qed.

Section Facts.

Variable str_lower str_upper : str → str.
Hypothesis Hlower : lower_on_ascii str_lower.
Hypothesis Hupper : upper_on_ascii str_upper.

Local Abbreviation sub := (capitals_sub str_lower).
Local Abbreviation to_pep8 := (camel_case_to_pep8 str_lower).
Local Abbreviation to_camel := (pep8_to_camel_case str_lower str_upper).

Lemma lower_capital c :
  is_capital c = true → str_lower [c] = [(c + 32)%N].
Proof.
  intros Hc. rewrite Hlower.
  - simpl. unfold ascii_lower. by rewrite Hc.
  - apply is_capital_spec in Hc. repeat constructor. lia.
Qed.

Lemma sub_capital c s :
  is_capital c = true → sub (c :: s) = underscore :: (c + 32)%N :: sub s.
Proof.
  intros Hc. unfold capitals_sub. simpl. by rewrite Hc, lower_capital.
Qed.

Lemma sub_other c s : is_capital c = false → sub (c :: s) = c :: sub s.
Proof. intros Hc. unfold capitals_sub. simpl. by rewrite Hc. Qed.

Lemma sub_plain_app s t : plain s → sub (s ++ t) = s ++ sub t.
Proof.
  induction 1 as [|c s (_ & Hc & _) _ IH]; [done|].
  rewrite <- !app_comm_cons, sub_other, IH; done.
Qed.

Lemma lower_plain s : plain s → str_lower s = s.
Proof.
  intros Hs. rewrite Hlower by by apply plain_ascii. by apply plain_lower.
Qed.

Lemma capitalize_word w :
  pep8_word w → capitalize str_lower str_upper w = Returns (cap w).
Proof.
  intros (l & rest & -> & Hl & Hrest). unfold capitalize. simpl.
  rewrite drop_0, lower_plain by done.
  rewrite Hupper.
  - simpl. unfold ascii_upper. by rewrite Hl.
  - apply is_small_spec in Hl. repeat constructor. lia.
Qed.

Lemma capitalize_all_words ws :
  Forall pep8_word ws →
  capitalize_all str_lower str_upper ws = Returns (cap <$> ws).
Proof.
  induction 1 as [|w ws Hw _ IH]; [done|].
  simpl. by rewrite capitalize_word, IH.
Qed.

(** The chunks of a converted camel-cased name: plain text, then words. *)
Lemma split_sub name :
  camel_text name →
  ∃ chunk0 words,
    split underscore (sub name) = chunk0 :: words ∧
    plain chunk0 ∧ Forall pep8_word words ∧
    name = chunk0 ++ concat (cap <$> words).
Proof.
  induction 1 as [|c name (Hc & Hu) _ (chunk0 & words & Hsplit & H0 & Hws & Hname)].
  { exists [], []. repeat split; constructor. }
  destruct (is_capital c) eqn:Hcap.
  - rewrite sub_capital by done. apply is_capital_spec in Hcap.
    exists [], (((c + 32)%N :: chunk0) :: words). simpl.
    destruct (N.eqb_spec (c + 32) underscore) as [E|_];
      [unfold underscore in E; lia|].
    rewrite Hsplit. repeat split.
    + constructor.
    + constructor; [|done]. exists (c + 32)%N, chunk0.
      repeat split; [|done]. apply is_small_spec. lia.
    + f_equal; [lia | exact Hname].
  - rewrite sub_other by done. exists (c :: chunk0), words. simpl.
    destruct (N.eqb_spec c underscore) as [E|_]; [done|].
    rewrite Hsplit. repeat split; [|done|by rewrite Hname].
    by constructor.
Qed.

Lemma sub_caps ws :
  Forall pep8_word ws →
  sub (concat (cap <$> ws)) = flat_map (λ x, underscore :: x) ws.
Proof.
  induction 1 as [|w ws (l & rest & -> & Hl & Hrest) _ IH]; [done|].
  apply is_small_spec in Hl. cbn [fmap list_fmap concat cap app flat_map].
  rewrite sub_capital by (apply is_capital_spec; lia).
  rewrite sub_plain_app, IH by done.
  replace (l - 32 + 32)%N with l by lia. done.
Qed.

(** X5. [camel_case_to_pep8] raises on the empty name, with
    [IndexError] (from [converted[0]]), and on no other name. *)
Theorem camel_case_to_pep8_raises name e :
  camel_case_to_pep8 str_lower name = Raises e ↔ name = [] ∧ e = IndexError.
Proof.
  unfold camel_case_to_pep8, capitals_sub.
  destruct name as [|c name]; simpl.
  { split; [by intros [= <-] | by intros [_ ->]]. }
  destruct (is_capital c); simpl.
  - split; [done | by intros [[=] _]].
  - destruct (c =? underscore)%N; (split; [done | by intros [[=] _]]).
Qed.

(** X6. What [camel_case_to_pep8] returns has no letter [A] to [Z]
    left in it, whatever the name. *)
Theorem camel_case_to_pep8_no_capitals name r :
  to_pep8 name = Returns r → Forall (λ c, is_capital c = false) r.
Proof.
  assert (Forall (λ c, is_capital c = false) (sub name)) as Hsub.
  { induction name as [|c name IH]; [constructor|].
    destruct (is_capital c) eqn:Hc.
    - rewrite sub_capital by done. apply is_capital_spec in Hc.
      repeat constructor; [|done]. apply is_capital_false. lia.
    - rewrite sub_other by done. by constructor. }
  unfold camel_case_to_pep8.
  destruct (sub name !! 0) as [c0|]; [|done].
  destruct (c0 =? underscore)%N; intros [= <-]; [|done].
  by apply Forall_drop.
Qed.

(** X7. The case of the first letter does not count: a name that
    starts with a capital is converted as the same name starting with
    the small letter. *)
Theorem camel_case_to_pep8_first_letter c rest :
  is_capital c = true →
  to_pep8 (c :: rest) = to_pep8 (ascii_lower c :: rest).
Proof.
  intros Hc. unfold camel_case_to_pep8.
  rewrite sub_capital by done. unfold ascii_lower. rewrite Hc.
  apply is_capital_spec in Hc.
  rewrite sub_other by (apply is_capital_false; lia). simpl.
  destruct (N.eqb_spec (c + 32) underscore) as [E|_]; [|done].
  unfold underscore in E. lia.
Qed.

(** X8. [pep8_to_camel_case] raises exactly on the names that have an
    empty chunk between underscores: the empty name, a name that starts
    or ends with ['_'], a name with ['__'] in it; the exception is
    [IndexError] (from [s[0]]), whatever [initial] is. *)
Theorem pep8_to_camel_case_raises name initial e :
  to_camel name initial = Raises e ↔
  e = IndexError ∧
  (name = [] ∨ head name = Some underscore ∨ last name = Some underscore ∨
   ∃ l1 l2, name = l1 ++ underscore :: underscore :: l2).
Proof.
  rewrite <- split_elem_nil. unfold pep8_to_camel_case.
  destruct (split_cons_inv underscore name) as (chunk & chunks & ->).
  assert (∀ l, (∃ xs, capitalize_all str_lower str_upper l = Returns xs ∧ [] ∉ l) ∨
               (capitalize_all str_lower str_upper l = Raises IndexError ∧ [] ∈ l))
    as Hall.
  { induction l as [|x l IH]; simpl.
    { left. eexists. split; [done|]. by intros ?%elem_of_nil. }
    destruct x as [|c x]; simpl.
    { right. split; [done|]. by left. }
    destruct IH as [(xs & -> & Hn) | [-> Hin]].
    - left. eexists. split; [done|]. by intros [[=]|?]%elem_of_cons.
    - right. split; [done|]. by right. }
  destruct (Hall (chunk :: chunks)) as [(xs & -> & Hn) | [-> Hin]].
  - destruct initial; simpl; (split; [done | by intros [_ ?]]).
  - split; [by intros [= <-] | by intros [-> _]].
Qed.

(** X9. A camel-cased ASCII name that starts with anything but a
    capital comes back unchanged from [camel_case_to_pep8] followed by
    [pep8_to_camel_case] with [initial=False]. *)
Theorem camel_case_round_trip_lower c name :
  camel_text (c :: name) → is_capital c = false →
  ∃ p, to_pep8 (c :: name) = Returns p ∧ to_camel p false = Returns (c :: name).
Proof.
  intros Htext Hc.
  assert (c ≠ underscore) as Hu by (apply Forall_cons in Htext as [[_ ?] _]; done).
  destruct (split_sub _ Htext) as (chunk0 & words & Hsplit & H0 & Hws & Hname).
  exists (sub (c :: name)). split.
  - unfold camel_case_to_pep8. rewrite sub_other by done. simpl.
    by destruct (N.eqb_spec c underscore).
  - unfold pep8_to_camel_case. rewrite Hsplit.
    assert (∃ rest, chunk0 = c :: rest) as (rest & ->).
    { rewrite sub_other in Hsplit by done. simpl in Hsplit.
      destruct (N.eqb_spec c underscore); [done|].
      destruct (split_cons_inv underscore (sub name)) as (ch & chs & E).
      rewrite E in Hsplit. simplify_eq. by eexists. }
    cbn [capitalize_all capitalize lookup list_lookup].
    rewrite capitalize_all_words by done. simpl.
    rewrite (lower_plain _ H0). by rewrite Hname.
Qed.

(** X10. A camel-cased ASCII name that starts with a capital comes
    back unchanged from [camel_case_to_pep8] followed by
    [pep8_to_camel_case] with [initial=True]. *)
Theorem camel_case_round_trip_upper c name :
  camel_text (c :: name) → is_capital c = true →
  ∃ p, to_pep8 (c :: name) = Returns p ∧ to_camel p true = Returns (c :: name).
Proof.
  intros [_ Htext]%Forall_cons Hc.
  destruct (split_sub _ Htext) as (chunk0 & words & Hsplit & H0 & Hws & Hname).
  exists ((c + 32)%N :: sub name). split.
  - unfold camel_case_to_pep8. rewrite sub_capital by done. done.
  - apply is_capital_spec in Hc.
    unfold pep8_to_camel_case. simpl.
    destruct (N.eqb_spec (c + 32) underscore) as [E|_];
      [unfold underscore in E; lia|].
    rewrite Hsplit.
    rewrite (capitalize_all_words (((c + 32)%N :: chunk0) :: words)).
    + simpl. f_equal. f_equal; [lia | by symmetry].
    + constructor; [|done]. exists (c + 32)%N, chunk0.
      repeat split; [|done]. apply is_small_spec. lia.
Qed.

(** X11. A PEP8 name made of words joined by ['_'], each word a letter
    [a] to [z] followed by ASCII text without capitals, comes back
    unchanged from [pep8_to_camel_case], with either value of
    [initial], followed by [camel_case_to_pep8]. *)
Theorem pep8_round_trip w ws initial :
  Forall pep8_word (w :: ws) →
  ∃ c, to_camel (join underscore (w :: ws)) initial = Returns c ∧
       to_pep8 c = Returns (join underscore (w :: ws)).
Proof.
  intros Hwords. pose proof Hwords as [Hw Hws]%Forall_cons.
  unfold pep8_to_camel_case. rewrite split_join.
  2:{ eapply Forall_impl; [exact Hwords|].
      intros x Hx. by apply plain_no_sep, pep8_word_plain. }
  rewrite capitalize_all_words by done.
  destruct Hw as (l & rest & -> & Hl & Hrest).
  pose proof Hl as Hl'. apply is_small_spec in Hl'.
  destruct initial; eexists; (split; [done|]); unfold camel_case_to_pep8.
  - rewrite sub_caps by done. simpl. by replace (l - 32 + 32)%N with l by lia.
  - cbn [lookup list_lookup fmap list_fmap drop].
    rewrite lower_plain
      by (apply pep8_word_plain; exists l, rest; by repeat split).
    rewrite sub_plain_app
      by (apply pep8_word_plain; exists l, rest; by repeat split).
    rewrite drop_0, sub_caps by done. simpl.
    destruct (N.eqb_spec l underscore) as [E|_]; [|done].
    unfold underscore in E. lia.
Qed.

End Facts.

(** The names of [test_camel_case_to_pep8]. *)
Example test_camel_case_to_pep8 :
  let to_pep8 := camel_case_to_pep8 lower_ascii_only in
  let to_camel := pep8_to_camel_case lower_ascii_only upper_ascii_only in
  to_pep8 (of_string "fooBarBaz") = Returns (of_string "foo_bar_baz") ∧
  to_pep8 (of_string "FooBarBaz") = Returns (of_string "foo_bar_baz") ∧
  to_pep8 (of_string "fOO") = Returns (of_string "f_o_o") ∧
  to_camel (of_string "foo_bar_baz") true = Returns (of_string "FooBarBaz") ∧
  to_camel (of_string "foo_bar_baz") false = Returns (of_string "fooBarBaz") ∧
  to_camel (of_string "f_o_o") true = Returns (of_string "FOO").
Proof. repeat split; reflexivity. Qed.

Ltac ascii_text :=
  vm_compute;
  repeat first
    [ apply Forall_nil
    | apply Forall_cons
    | split
    | reflexivity
    | discriminate
    | eexists ].

Lemma camel_case_to_pep8_no_capitals_witness :
  Forall (λ c, is_capital c = false) (of_string "foo_bar_baz").
Proof.
  apply (camel_case_to_pep8_no_capitals lower_ascii_only lower_ascii_only_ok
           (of_string "FooBarBaz") (of_string "foo_bar_baz")).
  reflexivity.
Defined.

Lemma camel_case_to_pep8_first_letter_witness :
  camel_case_to_pep8 lower_ascii_only (of_string "FooBar") =
  camel_case_to_pep8 lower_ascii_only (ascii_lower 70 :: of_string "ooBar").
Proof.
  apply (camel_case_to_pep8_first_letter lower_ascii_only lower_ascii_only_ok
           70%N (of_string "ooBar")).
  reflexivity.
Defined.

Lemma camel_case_round_trip_lower_witness :
  ∃ p, camel_case_to_pep8 lower_ascii_only (of_string "fooBar2Baz") = Returns p ∧
       pep8_to_camel_case lower_ascii_only upper_ascii_only p false =
         Returns (of_string "fooBar2Baz").
Proof.
  apply (camel_case_round_trip_lower lower_ascii_only upper_ascii_only
           lower_ascii_only_ok upper_ascii_only_ok
           102%N (of_string "ooBar2Baz")).
  - ascii_text.
  - reflexivity.
Defined.

Lemma camel_case_round_trip_upper_witness :
  ∃ p, camel_case_to_pep8 lower_ascii_only (of_string "FOO") = Returns p ∧
       pep8_to_camel_case lower_ascii_only upper_ascii_only p true =
         Returns (of_string "FOO").
Proof.
  apply (camel_case_round_trip_upper lower_ascii_only upper_ascii_only
           lower_ascii_only_ok upper_ascii_only_ok
           70%N (of_string "OO")).
  - ascii_text.
  - reflexivity.
Defined.

Lemma pep8_round_trip_witness :
  ∃ c, pep8_to_camel_case lower_ascii_only upper_ascii_only
         (join underscore [of_string "foo"; of_string "bar2"; of_string "b"]) false =
         Returns c ∧
       camel_case_to_pep8 lower_ascii_only c =
         Returns (join underscore [of_string "foo"; of_string "bar2"; of_string "b"]).
Proof.
  apply (pep8_round_trip lower_ascii_only upper_ascii_only
           lower_ascii_only_ok upper_ascii_only_ok
           (of_string "foo") [of_string "bar2"; of_string "b"] false).
  repeat constructor; eexists _, _; (split; [reflexivity|]);
    (split; [reflexivity | ascii_text]).
Defined.

End PyStrFacts.

(** ** Thrift payloads *)

Module ThriftFacts.
Import PyStr Thrift.

Section Facts.

Context {value : Type}.
Variable str_lower : str → str.

Local Abbreviation to_pep8 := (camel_case_to_pep8 str_lower).
Local Abbreviation build := (dict_of_attrs (value := value) str_lower).

Lemma to_pep8_nil : to_pep8 [] = Raises IndexError.
Proof. done. Qed.

Lemma to_pep8_returns name : name ≠ [] → ∃ key, to_pep8 name = Returns key.
Proof.
  destruct name as [|c name]; [done|]. intros _.
  unfold camel_case_to_pep8, capitals_sub. simpl.
  destruct (is_capital c); simpl; [by eauto|].
  destruct (c =? underscore)%N; by eauto.
Qed.

Lemma build_returns obj attrs d0 :
  (∃ d, build obj attrs d0 = Returns d) ↔
  Forall (λ attr, attr ≠ [] ∧ is_Some (attributes obj !! attr)) attrs.
Proof.
  revert d0. induction attrs as [|attr attrs IH]; intros d0; simpl.
  { split; [constructor | by eauto]. }
  rewrite Forall_cons. destruct attr as [|c attr].
  { rewrite to_pep8_nil. split; [by intros [? ?] | by intros [[? _] _]]. }
  destruct (to_pep8_returns (c :: attr)) as (key & ->); [done|].
  destruct (attributes obj !! (c :: attr)) as [v|].
  - rewrite IH. split; [by eauto | by intros [_ ?]].
  - split; [by intros [? ?] | by intros [[_ [? ?]] _]].
Qed.

(** Where the entries of the dictionary come from. *)
Lemma build_lookup obj attrs d0 d key :
  build obj attrs d0 = Returns d →
  (∀ l1 attr l2,
     attrs = l1 ++ attr :: l2 → to_pep8 attr = Returns key →
     Forall (λ attr', to_pep8 attr' ≠ Returns key) l2 →
     d !! key = attributes obj !! attr) ∧
  (Forall (λ attr', to_pep8 attr' ≠ Returns key) attrs → d !! key = d0 !! key).
Proof.
  revert d0. induction attrs as [|a attrs IH]; intros d0; simpl.
  { intros [= <-]. split; [|done]. intros l1 attr l2 E. by destruct l1. }
  destruct (to_pep8 a) as [ka|] eqn:Ha; [|done].
  destruct (attributes obj !! a) as [va|] eqn:Hva; [|done].
  intros Hd. destruct (IH _ Hd) as [IH1 IH2]. split.
  - intros l1 attr l2 E Hattr Hl2. destruct l1 as [|x l1]; simplify_eq/=.
    + rewrite Ha in Hattr. simplify_eq.
      rewrite IH2 by done. by rewrite lookup_insert_eq.
    + by eapply IH1.
  - intros [Hne Hrest]%Forall_cons. rewrite IH2 by done.
    apply lookup_insert_ne. congruence.
Qed.

Lemma build_origin obj attrs d0 d key v :
  build obj attrs d0 = Returns d → d !! key = Some v →
  d0 !! key = Some v ∨
  ∃ attr, attr ∈ attrs ∧ to_pep8 attr = Returns key ∧
          attributes obj !! attr = Some v.
Proof.
  revert d0. induction attrs as [|a attrs IH]; intros d0; simpl.
  { intros [= <-]. by left. }
  destruct (to_pep8 a) as [ka|] eqn:Ha; [|done].
  destruct (attributes obj !! a) as [va|] eqn:Hva; [|done].
  intros Hd Hkey. destruct (IH _ Hd Hkey) as [H0 | (attr & Hin & Hattr & Hv)].
  - destruct (decide (ka = key)) as [->|Hne].
    + rewrite lookup_insert_eq in H0. simplify_eq. right.
      exists a. split; [by left | done].
    + rewrite lookup_insert_ne in H0 by done. by left.
  - right. exists attr. split; [by right | done].
Qed.

(** X12. [thrift_type_to_dict] returns a dictionary exactly when every
    name of [thrift_spec] is non-empty and is an attribute of the
    object; otherwise it raises ([IndexError] for an empty name,
    [AttributeError] for a missing attribute). *)
Theorem thrift_type_to_dict_returns (obj : payload (value := value)) :
  (∃ d, thrift_type_to_dict str_lower obj = Returns d) ↔
  Forall (λ attr, attr ≠ [] ∧ is_Some (attributes obj !! attr))
    (thrift_attrs obj).
Proof. apply build_returns. Qed.

(** X13. In the dictionary [thrift_type_to_dict] returns, the entry
    under a converted name holds the attribute of the last field of
    [thrift_spec] whose name converts to it: when two field names
    convert to the same key, the later one wins. *)
Theorem thrift_type_to_dict_last_wins (obj : payload (value := value))
    d l1 attr l2 key :
  thrift_type_to_dict str_lower obj = Returns d →
  thrift_attrs obj = l1 ++ attr :: l2 →
  camel_case_to_pep8 str_lower attr = Returns key →
  Forall (λ attr', camel_case_to_pep8 str_lower attr' ≠ Returns key) l2 →
  d !! key = attributes obj !! attr.
Proof.
  intros Hd Hattrs Hkey Hl2.
  by eapply (proj1 (build_lookup _ _ _ _ key Hd)).
Qed.

(** X14. The dictionary [thrift_type_to_dict] returns has nothing else
    in it: every entry is an attribute of the object, under the
    converted name of a field of [thrift_spec]. *)
Theorem thrift_type_to_dict_origin (obj : payload (value := value)) d key v :
  thrift_type_to_dict str_lower obj = Returns d →
  d !! key = Some v →
  ∃ attr, attr ∈ thrift_attrs obj ∧
          camel_case_to_pep8 str_lower attr = Returns key ∧
          attributes obj !! attr = Some v.
Proof.
  intros Hd Hkey.
  destruct (build_origin _ _ _ _ _ _ Hd Hkey) as [H0 | H]; [|done].
  by rewrite lookup_empty in H0.
Qed.

End Facts.

Lemma thrift_type_to_dict_returns_witness :
  ∃ d, thrift_type_to_dict lower_ascii_only scan_payload = Returns d.
Proof.
  apply (thrift_type_to_dict_returns lower_ascii_only scan_payload).
  repeat constructor; try discriminate; vm_compute; by eexists.
Defined.

Lemma thrift_type_to_dict_last_wins_witness :
  ∃ d, thrift_type_to_dict lower_ascii_only scan_payload = Returns d ∧
       d !! of_string "foo_bar" = Some 30%Z.
Proof.
  eexists. split; [reflexivity|].
  apply (thrift_type_to_dict_last_wins lower_ascii_only scan_payload _
           [of_string "fooBar"; of_string "name"] (of_string "FooBar") []
           (of_string "foo_bar")); [reflexivity | reflexivity | reflexivity | constructor].
Defined.

Lemma thrift_type_to_dict_origin_witness :
  ∃ attr, attr ∈ thrift_attrs scan_payload ∧
          camel_case_to_pep8 lower_ascii_only attr = Returns (of_string "name") ∧
          attributes scan_payload !! attr = Some 20%Z.
Proof.
  eapply (thrift_type_to_dict_origin lower_ascii_only scan_payload _
            (of_string "name") 20%Z); reflexivity.
Defined.

End ThriftFacts.

(** ** Text as a row prefix *)

Module EnsureBytesFacts.
Import PyStr EnsureBytes.

Lemma encode_ascii_below_ff s b :
  encode_ascii s = Returns b → Forall (λ x, PyBytes.ord x ≠ 0xff%N) b.
Proof.
  unfold encode_ascii. destruct (forallb _ s) eqn:Hs; [|done].
  intros [= <-]. apply Forall_fmap, Forall_forall. intros c Hc.
  rewrite forallb_forall in Hs. apply list_elem_of_In, Hs, N.ltb_lt in Hc.
  unfold PyBytes.ord. simpl.
  destruct (Byte.of_N c) as [x|] eqn:Hx.
  - apply Byte.to_of_N in Hx. simpl. rewrite Hx. change 0xff%N with 255%N. lia.
  - apply Byte.of_N_None_iff in Hx. lia.
Qed.

(** X24. UTF-8 never produces the byte [0xFF].  So for a text whose
    encoding is not empty, [bytes_increment] of what [ensure_bytes]
    returns is never [None]: it is the encoding with its last byte
    incremented, of the same length. *)
Theorem ensure_bytes_text_increment (encode_utf8 : str → result (list byte))
    (s : str) (b : list byte) :
  (∀ s b, encode_utf8 s = Returns b → Forall (λ x, PyBytes.ord x ≠ 0xff%N) b) →
  ensure_bytes encode_utf8 (ObjText s) = Returns b → b ≠ [] →
  ∃ p x y, b = p ++ [x] ∧ PyBytes.ord y = (PyBytes.ord x + 1)%N ∧
           PyBytes.bytes_increment b = PyBytes.Returns (Some (p ++ [y])).
Proof.
  intros Hutf8 Hb Hne. simpl in Hb. apply Hutf8 in Hb.
  destruct b as [|x p _] using rev_ind; [done|].
  apply Forall_app in Hb as [_ [Hx _]%Forall_cons].
  destruct (PyBytesFacts.of_N_succ x Hx) as (y & Hy & Hord).
  exists p, x, y. repeat split; [done|].
  rewrite PyBytesFacts.bytes_increment_snoc, Hy.
  by destruct (N.eqb_spec (PyBytes.ord x) 0xff).
Qed.

Lemma ensure_bytes_text_increment_witness :
  ∃ p x y, [x66; x6f; x6f] = p ++ [x] ∧
           PyBytes.ord y = (PyBytes.ord x + 1)%N ∧
           PyBytes.bytes_increment [x66; x6f; x6f] =
             PyBytes.Returns (Some (p ++ [y])).
Proof.
  apply (ensure_bytes_text_increment encode_ascii (of_string "foo")
           [x66; x6f; x6f] encode_ascii_below_ff); [reflexivity | discriminate].
Defined.

End EnsureBytesFacts.

(** ** More on the retry wrappers: any operation whatever *)

Module RetryMoreFacts.
Import Retry RetryFacts RetryObservers.

Section Facts.

Context {world args exn cls R value : Type}.
Variable isinstance : exn → cls → bool.
Variable iter_next : R → world → pulled (exn := exn) (value := value) * world.
Variable expected_exception : list cls.
Variable retry_count : Z.
Variable callback : option (callable (world := world) (args := args) (exn := exn) unit).
Variable func : callable (world := world) (args := args) (exn := exn) R.

Local Abbreviation expected := (matches isinstance expected_exception).
Local Abbreviation handler := (except_expected (R := R) retry_count callback).
Local Abbreviation loop :=
  (retryable_loop isinstance expected_exception retry_count callback func).
Local Abbreviation gloop :=
  (generator_loop isinstance iter_next expected_exception retry_count callback func).
Local Abbreviation next :=
  (gen_next isinstance iter_next expected_exception retry_count callback func).

(** All that the [except] block can do. *)
Lemma except_expected_cases a i prev e w h w' th :
  handler a i prev e w = (h, w', th) →
  ((retry_count ≤ i)%Z ∧ h = Raise e ∧ w' = w ∧
   th = [LogError (prev ++ [e])]) ∨
  ((i < retry_count)%Z ∧ callback = None ∧ h = Return (prev ++ [e]) ∧ w' = w ∧
   th = [LogInfo e (retry_count - i)]) ∨
  ((i < retry_count)%Z ∧
   ∃ cb r0, callback = Some cb ∧ cb a w = (r0, w') ∧
     th = [LogInfo e (retry_count - i); CalledBack a r0] ∧
     h = match r0 with
         | Return _ => Return (prev ++ [e])
         | Raise e' => Raise e'
         end).
Proof.
  unfold except_expected.
  destruct (Z.geb_spec i retry_count) as [Hi|Hi]; unfold_M.
  - intros [= <- <- <-]. left. repeat split; [lia|done..].
  - destruct callback as [cb|]; unfold_M.
    + destruct (cb a w) as [r0 w1] eqn:Hcb. intros Hrun. right. right.
      split; [done|]. exists cb, r0.
      destruct r0; simplify_eq/=; done.
    + intros [= <- <- <-]. right. left. done.
Qed.

(** The invocations an [except] block adds to a trace. *)
Lemma except_expected_counts a i prev e w h w' th :
  handler a i prev e w = (h, w', th) →
  calls th = [] ∧ raised th = [] ∧ outcomes th = [] ∧
  (callbacks th = [] ∨ (callbacks th = [a] ∧ (i < retry_count)%Z)) ∧
  (∀ prev', h = Return prev' →
     (i < retry_count)%Z ∧ prev' = prev ++ [e] ∧ callbacks_returned th ∧
     ∀ l, LogError l ∉ th).
Proof.
  intros Hh.
  destruct (except_expected_cases _ _ _ _ _ _ _ _ Hh)
    as [(Hi & -> & -> & ->) | [(Hi & Hcb & -> & -> & ->) |
        (Hi & cb & r0 & Hcb & Hrun & -> & ->)]].
  - do 3 (split; [reflexivity|]). split; [by left|]. intros prev' [=].
  - do 3 (split; [reflexivity|]). split; [by left|]. intros prev' [= <-].
    do 2 (split; [done|]). split; [by repeat constructor|].
    intros l [[=] | ?%elem_of_nil]%elem_of_cons. done.
  - do 3 (split; [reflexivity|]). split; [by right|].
    destruct r0 as [u|e']; intros prev' [= <-].
    do 2 (split; [done|]). split; [by repeat constructor|].
    intros l [[=] | [[=] | ?%elem_of_nil]%elem_of_cons]%elem_of_cons. done.
Qed.

(** *** Counting in a trace *)

Lemma calls_app (t1 t2 : list (event (args := args) (exn := exn) (R := R))) :
  calls (t1 ++ t2) = calls t1 ++ calls t2.
Proof. apply omap_app. Qed.

Lemma callbacks_app (t1 t2 : list (event (args := args) (exn := exn) (R := R))) :
  callbacks (t1 ++ t2) = callbacks t1 ++ callbacks t2.
Proof. apply omap_app. Qed.

Lemma raised_app (t1 t2 : list (event (args := args) (exn := exn) (R := R))) :
  raised (t1 ++ t2) = raised t1 ++ raised t2.
Proof. apply omap_app. Qed.

Lemma outcomes_app (t1 t2 : list (event (args := args) (exn := exn) (R := R))) :
  outcomes (t1 ++ t2) = outcomes t1 ++ outcomes t2.
Proof. apply omap_app. Qed.

Lemma trace_called (a : args) (r : outcome (exn := exn) R)
    (t : list (event (args := args) (exn := exn) (R := R))) :
  calls (Called a r :: t) = a :: calls t ∧
  callbacks (Called a r :: t) = callbacks t ∧
  outcomes (Called a r :: t) = r :: outcomes t ∧
  raised (Called a r :: t) =
    match r with Raise e => e :: raised t | Return _ => raised t end.
Proof. by destruct r. Qed.

(** *** [retryable]: how often the operation is invoked *)

Lemma retryable_loop_bounds fuel a i prev w r w' t :
  loop fuel a i prev w = (r, w', t) →
  Forall (eq a) (calls t) ∧ Forall (eq a) (callbacks t) ∧
  length (calls t) ≤ S (Z.to_nat (retry_count - i)) ∧
  length (callbacks t) ≤ Z.to_nat (retry_count - i) ∧
  (fuel ≠ 0 → 1 ≤ length (calls t)).
Proof.
  revert i prev w r w' t. induction fuel as [|fuel IH]; intros i prev w r w' t.
  { intros [= <- <- <-]. repeat split; simpl; try constructor; try lia; done. }
  simpl. unfold_M.
  destruct (func a w) as [[v|e] w1].
  { intros [= <- <- <-]. repeat split; simpl; try lia; by repeat constructor. }
  destruct (expected e).
  2:{ intros [= <- <- <-]. repeat split; simpl; try lia; by repeat constructor. }
  destruct (handler a i prev e w1) as [[h w2] th] eqn:Hh.
  apply except_expected_counts in Hh as (Hc & _ & _ & Hcb & Hret).
  destruct h as [prev'|e'].
  - destruct (Hret _ eq_refl) as (Hi & _).
    destruct (loop fuel a (i + 1) prev' w2) as [[r' w3] t'] eqn:Hl.
    apply IH in Hl as (Hca & Hcba & Hlen & Hlenb & _).
    intros [= <- <- <-]. cbn [app].
    destruct (trace_called a (Raise e) (th ++ t')) as (-> & -> & _).
    rewrite calls_app, callbacks_app, Hc. cbn [app length].
    repeat split; try lia.
    + by constructor.
    + apply Forall_app. split; [|done].
      destruct Hcb as [-> | [-> _]]; by repeat constructor.
    + rewrite length_app.
      destruct Hcb as [-> | [-> _]]; simpl; lia.
  - intros [= <- <- <-]. cbn [app]. rewrite app_nil_r.
    destruct (trace_called a (Raise e) th) as (-> & -> & _).
    rewrite Hc. cbn [length].
    repeat split; try lia.
    + by repeat constructor.
    + destruct Hcb as [-> | [-> _]]; by repeat constructor.
    + destruct Hcb as [-> | [-> ?]]; simpl; lia.
Qed.

(** X15. Whatever the operation and the callback do, one call of the
    wrapper of [retryable] invokes the operation at least once and at
    most [retry_count + 1] times, the callback at most [retry_count]
    times, and both with the arguments of the call each time. *)
Theorem retryable_invocation_bounds a w r w' t :
  retryable_wrapper isinstance expected_exception retry_count callback func a w
    = (r, w', t) →
  1 ≤ length (calls t) ≤ Z.to_nat retry_count + 1 ∧
  length (callbacks t) ≤ Z.to_nat retry_count ∧
  Forall (eq a) (calls t) ∧ Forall (eq a) (callbacks t).
Proof.
  intros Hrun. apply retryable_loop_bounds in Hrun as (Hc & Hcb & Hl & Hlb & H1).
  rewrite Z.sub_0_r in Hl, Hlb. repeat split; try done; lia.
Qed.

(** *** [retryable]: where its result comes from *)

Lemma retryable_loop_provenance fuel a i prev w r w' t :
  loop fuel a i prev w = (Some r, w', t) → callbacks_returned t →
  ∃ rs, outcomes t = rs ++ [r] ∧
        Forall (λ r0, ∃ e, r0 = Raise e ∧ expected e = true) rs.
Proof.
  revert i prev w r w' t. induction fuel as [|fuel IH]; intros i prev w r w' t;
    [done|].
  simpl. unfold_M.
  destruct (func a w) as [[v|e] w1].
  { intros [= <- <- <-] _. exists []. split; [done | constructor]. }
  destruct (expected e) eqn:Hm.
  2:{ intros [= <- <- <-] _. exists []. split; [done | constructor]. }
  destruct (handler a i prev e w1) as [[h w2] th] eqn:Hh.
  destruct h as [prev'|e'].
  - apply except_expected_counts in Hh as (_ & _ & Ho & _).
    destruct (loop fuel a (i + 1) prev' w2) as [[r' w3] t'] eqn:Hl.
    intros [= -> <- <-]. cbn [app].
    intros [_ [_ Hq]%Forall_app]%Forall_cons.
    destruct (IH _ _ _ _ _ _ Hl Hq) as (rs & Hrs & Hall).
    exists (Raise e :: rs). split; [|constructor; by eauto].
    destruct (trace_called a (Raise e) (th ++ t')) as (_ & _ & -> & _).
    by rewrite outcomes_app, Ho, Hrs.
  - intros [= <- <- <-]. cbn [app]. rewrite app_nil_r. intros Hq.
    destruct (except_expected_cases _ _ _ _ _ _ _ _ Hh)
      as [(Hi & [= ->] & -> & ->) | [(Hi & Hcb & [=] & _) |
          (Hi & cb & r0 & Hcb & Hrun & -> & Hr0)]].
    + exists []. split; [done | constructor].
    + destruct r0 as [u|e0]; simplify_eq.
      apply Forall_cons in Hq as [_ [_ [Hq _]%Forall_cons]%Forall_cons].
      exfalso. eapply Hq. reflexivity.
Qed.

(** X16. Unless the callback raised, what the wrapper of [retryable]
    returns or raises is what the last invocation of the operation
    returned or raised, and every invocation before it raised an
    expected exception. *)
Theorem retryable_result_is_last_outcome a w r w' t :
  retryable_wrapper isinstance expected_exception retry_count callback func a w
    = (Some r, w', t) →
  callbacks_returned t →
  ∃ rs, outcomes t = rs ++ [r] ∧
        Forall (λ r0, ∃ e, r0 = Raise e ∧
                           matches isinstance expected_exception e = true) rs.
Proof. apply retryable_loop_provenance. Qed.

(** X17. With [retry_count] zero or negative the wrapper of
    [retryable] is a single attempt: it invokes the operation once and
    returns or raises what this invocation did; the callback is not
    invoked. *)
Theorem retryable_no_budget_single_attempt a w :
  (retry_count ≤ 0)%Z →
  ∃ t,
    retryable_wrapper isinstance expected_exception retry_count callback func
      a w = (Some (func a w).1, (func a w).2, t) ∧
    calls t = [a] ∧ callbacks t = [].
Proof.
  intros Hrc. unfold retryable_wrapper.
  replace (Z.to_nat retry_count) with 0 by lia. simpl. unfold_M.
  destruct (func a w) as [[v|e] w1]; simpl; [by eexists|].
  destruct (expected e); [|by eexists].
  rewrite except_expected_exhausted by lia. by eexists.
Qed.

(** *** [retryable]: the error log *)

Lemma retryable_loop_error_log fuel a i prev w r w' t h :
  loop fuel a i prev w = (r, w', t) → LogError h ∈ t →
  last t = Some (LogError h) ∧ h = prev ++ raised t ∧
  length (raised t) = S (Z.to_nat (retry_count - i)) ∧
  ∃ e, last (raised t) = Some e ∧ r = Some (Raise e).
Proof.
  revert i prev w r w' t. induction fuel as [|fuel IH]; intros i prev w r w' t.
  { intros [= <- <- <-] ?%elem_of_nil. done. }
  simpl. unfold_M.
  destruct (func a w) as [[v|e] w1].
  { intros [= <- <- <-] [[=] | ?%elem_of_nil]%elem_of_cons. done. }
  destruct (expected e).
  2:{ intros [= <- <- <-] [[=] | ?%elem_of_nil]%elem_of_cons. done. }
  destruct (handler a i prev e w1) as [[h0 w2] th] eqn:Hh.
  destruct h0 as [prev'|e'].
  - apply except_expected_counts in Hh as (_ & Hr & _ & _ & Hret).
    destruct (Hret _ eq_refl) as (Hi & -> & _ & Hnolog).
    destruct (loop fuel a (i + 1) (prev ++ [e]) w2) as [[r' w3] t'] eqn:Hl.
    intros [= <- <- <-]. cbn [app].
    intros [[=] | [Hin | Hin]%elem_of_app]%elem_of_cons;
      [by destruct (Hnolog h)|].
    destruct (IH _ _ _ _ _ _ Hl Hin) as (Hlast & -> & Hlen & e1 & He1 & ->).
    destruct (trace_called a (Raise e) (th ++ t')) as (_ & _ & _ & ->).
    rewrite raised_app, Hr. cbn [app length].
    repeat split.
    + change (Called a (Raise e) :: th ++ t')
        with ((Called a (Raise e) :: th) ++ t').
      by rewrite last_app, Hlast.
    + by rewrite <- app_assoc.
    + lia.
    + exists e1. by rewrite last_cons, He1.
  - intros [= <- <- <-]. cbn [app]. rewrite app_nil_r.
    destruct (except_expected_cases _ _ _ _ _ _ _ _ Hh)
      as [(Hi & [= ->] & -> & ->) | [(Hi & Hcb & [=] & _) |
          (Hi & cb & r0 & Hcb & Hrun & -> & Hr0)]].
    + intros [[=] | [[= ->] | ?%elem_of_nil]%elem_of_cons]%elem_of_cons;
        [|done].
      repeat split; try done.
      * replace (Z.to_nat (retry_count - i)) with 0 by lia. reflexivity.
      * by exists e.
    + intros [[=] | [[=] | [[=] | ?%elem_of_nil]%elem_of_cons]%elem_of_cons]%elem_of_cons.
      done.
Qed.

(** X19. When the wrapper of [retryable] writes its error message, it
    is the last thing it does: the history it logs is the exceptions
    of all the invocations of this call, in order, there are
    [retry_count + 1] of them (one when [retry_count] is negative), and
    the call raises the last one. *)
Theorem retryable_error_log a w r w' t h :
  retryable_wrapper isinstance expected_exception retry_count callback func a w
    = (r, w', t) →
  LogError h ∈ t →
  last t = Some (LogError h) ∧ h = raised t ∧
  length h = S (Z.to_nat retry_count) ∧
  ∃ e, last h = Some e ∧ r = Some (Raise e).
Proof.
  intros Hrun Hin.
  destruct (retryable_loop_error_log _ _ _ _ _ _ _ _ _ Hrun Hin)
    as (Hlast & Hh & Hlen & e & He & ->).
  simpl in Hh. subst h. rewrite Z.sub_0_r in Hlen.
  repeat split; try done. by exists e.
Qed.

(** *** The default [expected_exception=()] *)

(** X18. With the default [expected_exception=()] neither wrapper
    ever retries: [retryable]'s wrapper invokes the operation once and
    returns or raises what it did, and the first [next] on the
    generator of [retryable_generator] invokes it once; no callback,
    nothing logged. *)
Theorem default_expected_exception_never_retries :
  (∀ a w,
     retryable_wrapper isinstance [] retry_count callback func a w =
       (Some (func a w).1, (func a w).2, [Called a (func a w).1])) ∧
  (∀ a w r w' t,
     gen_next isinstance iter_next [] retry_count callback func
       (GenCreated a) w = (r, w', t) →
     t = [Called a (func a w).1]).
Proof.
  split.
  - intros a w. unfold retryable_wrapper. simpl. unfold_M.
    by destruct (func a w) as [[v|e] w1].
  - intros a w r w' t. cbn [gen_next]. simpl. unfold_M.
    destruct (func a w) as [[obj|e] w1]; simpl.
    + destruct (iter_next obj w1) as [[v| | |e] w2]; simpl;
        try (by intros [= <- <- <-]).
      unfold delegate. unfold_M.
      destruct (iter_next obj w2) as [[v| | |e] w3]; by intros [= <- <- <-].
    + by intros [= <- <- <-].
Qed.

(** *** [retryable_generator]: how often the operation is invoked *)

Lemma generator_loop_bounds fuel a i prev w r w' t :
  gloop fuel a i prev w = (r, w', t) →
  Forall (eq a) (calls t) ∧ Forall (eq a) (callbacks t) ∧
  length (calls t) ≤ S (Z.to_nat (retry_count - i)) ∧
  length (callbacks t) ≤ Z.to_nat (retry_count - i) ∧
  (∀ p g a', r = Some (p, g) → g ≠ GenCreated a').
Proof.
  revert i prev w r w' t. induction fuel as [|fuel IH]; intros i prev w r w' t.
  { intros [= <- <- <-]. repeat split; simpl; try constructor; try lia; done. }
  assert (∀ (r0 : outcome R) e w1 t0 r w' t,
    t0 = [] →
    (if expected e
     then h ← handler a i prev e;
          match h with
          | Raise e' => mret (Some (Raised e', GenClosed))
          | Return prev' => gloop fuel a (i + 1) prev'
          end
     else mret (Some (Raised e, GenClosed))) w1 = (r, w', t) →
    Forall (eq a) (calls (Called a r0 :: t0 ++ t)) ∧
    Forall (eq a) (callbacks (Called a r0 :: t0 ++ t)) ∧
    length (calls (Called a r0 :: t0 ++ t)) ≤ S (Z.to_nat (retry_count - i)) ∧
    length (callbacks (Called a r0 :: t0 ++ t)) ≤ Z.to_nat (retry_count - i) ∧
    (∀ p g a', r = Some (p, g) → g ≠ GenCreated a')) as Hraise.
  { intros r0 e w1 t0 r1 w1' t1 -> . cbn [app].
    destruct (trace_called a r0 t1) as (-> & -> & _).
    destruct (expected e).
    2:{ intros [= <- <- <-]. repeat split; simpl; try lia;
          try (by repeat constructor). by intros p g a' [= <- <-]. }
    unfold_M.
    destruct (handler a i prev e w1) as [[h w2] th] eqn:Hh.
    apply except_expected_counts in Hh as (Hc & _ & _ & Hcb & Hret).
    destruct h as [prev'|e'].
    - destruct (Hret _ eq_refl) as (Hi & _).
      destruct (gloop fuel a (i + 1) prev' w2) as [[r' w3] t'] eqn:Hl.
      apply IH in Hl as (Hca & Hcba & Hlen & Hlenb & Hst).
      intros [= <- <- <-].
      rewrite calls_app, callbacks_app, Hc. cbn [app length].
      repeat split; try lia.
      + by constructor.
      + apply Forall_app. split; [|done].
        destruct Hcb as [-> | [-> _]]; by repeat constructor.
      + rewrite length_app.
        destruct Hcb as [-> | [-> _]]; simpl; lia.
      + done.
    - intros [= <- <- <-]. rewrite app_nil_r, Hc. cbn [length].
      repeat split; try lia.
      + by repeat constructor.
      + destruct Hcb as [-> | [-> _]]; by repeat constructor.
      + destruct Hcb as [-> | [-> ?]]; simpl; lia.
      + by intros p g a' [= <- <-]. }
  simpl. unfold_M.
  destruct (func a w) as [[obj|e] w1].
  2:{ destruct (_ w1) as [[r1 w2] t1] eqn:Hrun. intros [= <- <- <-].
      by apply (Hraise (Raise e) e w1 [] r1 w2 t1). }
  destruct (iter_next obj w1) as [[v| | |e] w2].
  - intros [= <- <- <-]. repeat split; simpl; try lia;
      try (by repeat constructor). by intros p g a' [= <- <-].
  - intros [= <- <- <-]. repeat split; simpl; try lia;
      try (by repeat constructor). by intros p g a' [= <- <-].
  - unfold delegate. unfold_M.
    destruct (iter_next obj w2) as [[v| | |e] w3]; intros [= <- <- <-];
      repeat split; simpl; try lia; try (by repeat constructor);
      by intros p g a' [= <- <-].
  - destruct (_ w2) as [[r1 w3] t1] eqn:Hrun. intros [= <- <- <-].
    by apply (Hraise (Return obj) e w2 [] r1 w3 t1).
Qed.

(** Once started, the generator invokes nothing and logs nothing. *)
Lemma started_pulls_silent n g w r w' t :
  (∀ a', g ≠ GenCreated a') →
  pulls next n g w = (r, w', t) → t = [].
Proof.
  revert g w r w' t. induction n as [|n IH]; intros g w r w' t Hg.
  { by intros [= <- <- <-]. }
  simpl. unfold_M.
  destruct g as [a'|obj|obj|]; [by destruct (Hg a')|..]; cbn [gen_next];
    unfold delegate; unfold_M.
  - destruct (iter_next obj w) as [[v| | |e] w1];
      match goal with
      | |- context [pulls next n ?g ?w] =>
          destruct (pulls next n g w) as [[[rest|] w2] t2] eqn:Hp;
          (apply IH in Hp as ->; [|done])
      | |- _ => idtac
      end; try destruct rest; by intros [= <- <- <-].
  - destruct (iter_next obj w) as [[v| | |e] w1];
      match goal with
      | |- context [pulls next n ?g ?w] =>
          destruct (pulls next n g w) as [[[rest|] w2] t2] eqn:Hp;
          (apply IH in Hp as ->; [|done])
      | |- _ => idtac
      end; try destruct rest; by intros [= <- <- <-].
  - destruct (pulls next n GenClosed w) as [[[rest|] w2] t2] eqn:Hp;
      (apply IH in Hp as ->; [|done]);
      try destruct rest; by intros [= <- <- <-].
Qed.

(** X21. However many elements are asked of the generator of
    [retryable_generator], and whatever the operation, its iterators
    and the callback do, the operation is invoked at most
    [retry_count + 1] times and the callback at most [retry_count]
    times in all, each time with the arguments of the call. *)
Theorem generator_invocation_bounds n a w r w' t :
  pulls (gen_next isinstance iter_next expected_exception retry_count callback
           func) n (GenCreated a) w = (r, w', t) →
  length (calls t) ≤ Z.to_nat retry_count + 1 ∧
  length (callbacks t) ≤ Z.to_nat retry_count ∧
  Forall (eq a) (calls t) ∧ Forall (eq a) (callbacks t).
Proof.
  destruct n as [|n].
  { intros [= <- <- <-]. repeat split; simpl; try lia; constructor. }
  cbn [pulls gen_next]. unfold_M.
  destruct (gloop (S (Z.to_nat retry_count)) a 0 [] w) as [[r0 w1] t1] eqn:Hn.
  apply generator_loop_bounds in Hn as (Hc & Hcb & Hl & Hlb & Hst).
  rewrite Z.sub_0_r in Hl, Hlb.
  destruct r0 as [[p g]|].
  - destruct (pulls next n g w1) as [[rest w2] t2] eqn:Hp.
    apply started_pulls_silent in Hp as ->; [|by eauto].
    destruct rest as [[ps g']|]; intros [= <- <- <-];
      rewrite !app_nil_r; repeat split; try done; lia.
  - intros [= <- <- <-]. rewrite !app_nil_r. repeat split; try done; lia.
Qed.

(** *** [retryable_generator]: when nothing has to be retried *)



(** *** [retryable_generator]: [GeneratorExit] from the first element *)

(** X22. A [GeneratorExit] raised when the first element is asked of
    the iterator is swallowed: the generator of [retryable_generator]
    does not raise it and does not retry, it asks the same iterator
    for its next element and passes on what that gives. *)
Theorem generator_exit_on_first_element_swallowed a w obj w1 w2 p w3 :
  func a w = (Return obj, w1) →
  iter_next obj w1 = (Exited, w2) →
  iter_next obj w2 = (p, w3) →
  gen_next isinstance iter_next expected_exception retry_count callback func
    (GenCreated a) w =
    (Some (p, match p with
              | Yielded _ => GenDelegating obj
              | _ => GenClosed
              end), w3, [Called a (Return obj)]).
Proof.
  intros Hf Hp1 Hp2. cbn [gen_next generator_loop]. unfold_M.
  rewrite Hf, Hp1. rewrite (delegate_spec _ _ _ _ _ Hp2). by destruct p.
Qed.

(** *** [retryable_generator]: an operation that always fails *)




End Facts.

(** *** On test doubles *)

Import Mock.

Lemma retryable_invocation_bounds_witness :
  let t := [Called a0 (Raise (Exc ValueError 0)); LogInfo (Exc ValueError 0) 3;
            CalledBack a0 (Return tt); Called a0 (Return 42%Z)] in
  1 ≤ length (calls t) ≤ Z.to_nat 3 + 1 ∧
  length (callbacks t) ≤ Z.to_nat 3 ∧
  Forall (eq a0) (calls t) ∧ Forall (eq a0) (callbacks t).
Proof.
  intros t.
  apply (retryable_invocation_bounds isinstance [ValueError] 3
           (Some callback_ok) failing_once a0 w0 (Some (Return 42%Z)) (2, 0) t).
  reflexivity.
Defined.

Lemma retryable_result_is_last_outcome_witness :
  ∃ rs,
    outcomes [Called a0 (Raise (Exc ValueError 0)); LogInfo (Exc ValueError 0) 3;
              CalledBack a0 (Return tt); Called a0 (Return 42%Z)] =
      rs ++ [Return 42%Z] ∧
    Forall (λ r0, ∃ e, r0 = Raise e ∧ matches isinstance [ValueError] e = true) rs.
Proof.
  apply (retryable_result_is_last_outcome isinstance [ValueError] 3
           (Some callback_ok) failing_once a0 w0 (Return 42%Z) (2, 0)).
  - reflexivity.
  - repeat constructor; by intros ? ? [=].
Defined.

Lemma retryable_no_budget_single_attempt_witness :
  ∃ t,
    retryable_wrapper isinstance [ValueError] 0 (Some callback_ok)
      (always_failing (R := Z)) a0 w0 =
      (Some (always_failing (R := Z) a0 w0).1, (always_failing (R := Z) a0 w0).2, t) ∧
    calls t = [a0] ∧ callbacks t = [].
Proof.
  apply (retryable_no_budget_single_attempt isinstance [ValueError] 0
           (Some callback_ok) (always_failing (R := Z)) a0 w0).
  lia.
Defined.

Lemma retryable_error_log_witness :
  let t := [Called a0 (Raise (Exc ValueError 0)); LogInfo (Exc ValueError 0) 1;
            Called a0 (Raise (Exc ValueError 1));
            LogError [Exc ValueError 0; Exc ValueError 1]] in
  let h := [Exc ValueError 0; Exc ValueError 1] in
  last t = Some (LogError (R := Z) h) ∧ h = raised t ∧
  length h = S (Z.to_nat 1) ∧
  ∃ e, last h = Some e ∧
       Some (Raise (Exc ValueError 1)) = Some (Raise (A := Z) e).
Proof.
  intros t h.
  apply (retryable_error_log isinstance [ValueError] 1 None
           (always_failing (R := Z)) a0 w0 (Some (Raise (Exc ValueError 1)))
           (2, 0) t h).
  - reflexivity.
  - unfold t, h.
    repeat first [apply list_elem_of_here | apply list_elem_of_further].
Defined.

Lemma default_expected_exception_never_retries_witness :
  [Called a0 (Return 0)] =
  [Called (R := nat) a0 (producer a0 w0).1].
Proof.
  apply (proj2 (default_expected_exception_never_retries isinstance
                  (iter_next plan_retry) 5 (Some callback_ok) producer)
           a0 w0 (Some (Raised (Exc ValueError 0), GenClosed)) (1, 1)
           [Called a0 (Return 0)]).
  reflexivity.
Defined.

Lemma generator_invocation_bounds_witness :
  let t := [Called a0 (Return 0); LogInfo (Exc ValueError 0) 1;
            Called (R := nat) a0 (Return 1)] in
  length (calls t) ≤ Z.to_nat 1 + 1 ∧
  length (callbacks t) ≤ Z.to_nat 1 ∧
  Forall (eq a0) (calls t) ∧ Forall (eq a0) (callbacks t).
Proof.
  intros t.
  apply (generator_invocation_bounds isinstance (iter_next plan_retry)
           [ValueError] 1 None producer 4 a0 w0
           (Some ([Yielded 1%Z; Yielded 2%Z; Yielded 3%Z; Stopped], GenClosed))
           (2, 4) t).
  reflexivity.
Defined.


Lemma generator_exit_on_first_element_swallowed_witness :
  gen_next isinstance (iter_next plan_exit) [ValueError] 1 None producer
    (GenCreated a0) w0 =
    (Some (Yielded 5%Z, GenDelegating 0), (1, 2), [Called a0 (Return 0)]).
Proof.
  apply (generator_exit_on_first_element_swallowed isinstance
           (iter_next plan_exit) [ValueError] 1 None producer
           a0 w0 0 (1, 0) (1, 1) (Yielded 5%Z) (1, 2));
    reflexivity.
Defined.


End RetryMoreFacts.
